(** * tokenize-samples: the token audit script, embedded and verified

    The script [scripts/tokenize-samples.py] reads [samples/B.txt], strips
    ANSI colour codes, extracts the runs of word characters, counts them,
    prints a report and writes [samples/tokens-audit.json].

    Python strings are sequences of Unicode code points, so a text is a list
    of code points.  The two regular expressions of the script are kept as
    data (the opcodes [sre_parse] produces for them) and run by a small
    backtracking matcher; [re.sub] and [re.findall] are the scanning loops
    of the [re] module. *)

From Stdlib Require Import ZArith NArith Lia.
From stdpp Require Import base list strings gmap pretty sorting.
From Equations Require Import Equations.

Set Warnings "-register-all".

Local Open Scope N_scope.

(** ** Texts *)

(** A character is its code point; a Python [str] is a list of them. *)
Abbreviation char := N.
Abbreviation str := (list N).

(** A literal of the source, given as an ASCII string. *)
Definition lit (s : string) : str :=
  Ascii.N_of_ascii <$> String.list_ascii_of_string s.

(** ** The regular expression engine *)

Module Re.

(** Members of a character set, as [sre_parse] names them. *)
Inductive item :=
| LITERAL (c : char)
| RANGE (lo hi : char)
| CATEGORY_WORD.

(** One opcode of a parsed pattern: a set matched against one character,
    or a greedy repetition of a set, at least [min] times and without an
    upper bound. *)
Inductive op :=
| IN (set : list item)
| MAX_REPEAT (min : nat) (set : list item).

Definition pattern := list op.

Section Engine.

(** [str.isalnum] of a code point above the ASCII range: the Unicode
    character database, which is data of the interpreter. *)
Variable unicode_isalnum : char → bool.

(** [\w] for a [str] pattern: alphanumeric, or the underscore. *)
Definition is_word (c : char) : bool :=
  if c <? 128
  then (48 <=? c) && (c <=? 57) || (65 <=? c) && (c <=? 90)
       || (97 <=? c) && (c <=? 122) || (c =? 95)
  else unicode_isalnum c.

Definition item_matches (i : item) (c : char) : bool :=
  match i with
  | LITERAL d => c =? d
  | RANGE lo hi => (lo <=? c) && (c <=? hi)
  | CATEGORY_WORD => is_word c
  end.

Definition in_set (set : list item) (c : char) : bool :=
  existsb (λ i, item_matches i c) set.

(** Greedy repetition: take characters of the set while there are any,
    then run the rest of the pattern [k]; when the rest fails, give one
    character back and try again, never going below [min]. The result
    is the length of the match. *)
Fixpoint repeat_max (p : char → bool) (k : str → option nat)
    (min : nat) (s : str) : option nat :=
  let stop := match min with O => k s | S _ => None end in
  match s with
  | c :: s' =>
      if p c then
        match repeat_max p k (pred min) s' with
        | Some n => Some (S n)
        | None => stop
        end
      else stop
  | [] => stop
  end.

(** [sre_match pat s]: the length of the match of [pat] anchored at the
    start of [s], if there is one. *)
Fixpoint sre_match (pat : pattern) (s : str) : option nat :=
  match pat with
  | [] => Some O
  | IN set :: pat' =>
      match s with
      | c :: s' => if in_set set c then S <$> sre_match pat' s' else None
      | [] => None
      end
  | MAX_REPEAT min set :: pat' =>
      repeat_max (in_set set) (sre_match pat') min s
  end.

(** [pattern.sub('', s)]: scanning from the left, a match found at the
    current position is dropped and the scan resumes after it; otherwise
    the character is copied and the scan moves one character on.  (An
    empty match replaces nothing by nothing, so it copies too.) *)
Equations sub_empty (pat : pattern) (s : str) : str by wf (length s) lt :=
  sub_empty pat [] := [];
  sub_empty pat (c :: s') with sre_match pat (c :: s') := {
    | Some (S n) => sub_empty pat (drop n s');
    | _ => c :: sub_empty pat s' }.
Next Obligation. intros. rewrite length_drop. simpl. lia. Qed.

(** [pattern.findall(s)] for a pattern without groups: the matched
    texts, from the left; the scan resumes after a match, and one
    character on after an empty match or a failure. *)
Equations findall (pat : pattern) (s : str) : list str by wf (length s) lt :=
  findall pat [] := match sre_match pat [] with Some _ => [[]] | None => [] end;
  findall pat (c :: s') with sre_match pat (c :: s') := {
    | Some (S n) => (c :: take n s') :: findall pat (drop n s');
    | Some O => [] :: findall pat s';
    | None => findall pat s' }.
Next Obligation. intros. rewrite length_drop. simpl. lia. Qed.

End Engine.

End Re.

(** ** Built-in values of the interpreter *)

Module Py.

(** [a < b] on [str]: by code points, a proper prefix first. *)
Fixpoint str_lt (a b : str) : bool :=
  match a, b with
  | _, [] => false
  | [], _ :: _ => true
  | x :: a', y :: b' => (x <? y) || (x =? y) && str_lt a' b'
  end.

(** [a < b] on tuples [(int, str)]: the first components that differ
    decide. *)
Definition tuple_lt (a b : Z * str) : bool :=
  (a.1 <? b.1)%Z || (a.1 =? b.1)%Z && str_lt a.2 b.2.

(** A [dict]: its items in insertion order, each key once. *)
Definition dict (V : Type) := list (str * V).

Section Dict.
Context {V : Type}.

Fixpoint get (d : dict V) (k : str) (default : V) : V :=
  match d with
  | [] => default
  | (k', v) :: d' => if decide (k' = k) then v else get d' k default
  end.

(** [d[k] = v]: a key already present keeps its place. *)
Fixpoint setitem (d : dict V) (k : str) (v : V) : dict V :=
  match d with
  | [] => [(k, v)]
  | (k', v') :: d' =>
      if decide (k' = k) then (k', v) :: d' else (k', v') :: setitem d' k v
  end.

Definition items (d : dict V) : list (str * V) := d.
Definition len (d : dict V) : nat := length d.
End Dict.

(** [Counter(iterable)]: for each element,
    [mapping[elem] = mapping.get(elem, 0) + 1]. *)
Definition Counter (iterable : list str) : dict Z :=
  foldl (λ mapping elem, setitem mapping elem (get mapping elem 0 + 1)%Z)
        [] iterable.

(** [sorted(l, key=key)]: the keys are compared with [<] only; an element
    goes after those already placed that are not greater (list.sort's
    binary insertion, which keeps equal keys in their order). *)
Section Sorted.
Context {A K : Type} (lt : K → K → bool) (key : A → K).

Fixpoint insort (x : A) (l : list A) : list A :=
  match l with
  | [] => [x]
  | y :: l' => if lt (key x) (key y) then x :: y :: l' else y :: insort x l'
  end.

Definition sorted (l : list A) : list A :=
  foldl (λ acc x, insort x acc) [] l.
End Sorted.

(** [print(s)]: the text and a newline, on standard output. *)
Definition print (s : str) : str := s ++ [10].

(** [str(n)] of an integer, in decimal. *)
Definition str_int (n : Z) : str := lit (pretty n).

(** [f"{n:4d}"]: decimal, right-aligned in at least four columns. *)
Definition format_4d (n : Z) : str :=
  let digits := str_int n in
  replicate (4 - length digits) 32 ++ digits.

End Py.

(** ** The json module, as far as [json.dump(obj, f, indent=2)] goes *)

Module Json.

Inductive value :=
| Int (n : Z)
| Str (s : str)
| List (l : list value)
| Dict (l : list (str * value)).

Definition hex_digit (n : N) : char :=
  if n <? 10 then 48 + n else 87 + n.

(** ['{0:04x}'.format(n)] for [n < 0x10000]. *)
Definition hex4 (n : N) : str :=
  [hex_digit (n / 4096 mod 16); hex_digit (n / 256 mod 16);
   hex_digit (n / 16 mod 16); hex_digit (n mod 16)].

(** One character of [encode_basestring_ascii]. *)
Definition escape (c : char) : str :=
  if c =? 34 then [92; 34]
  else if c =? 92 then [92; 92]
  else if c =? 8 then [92; 98]
  else if c =? 12 then [92; 102]
  else if c =? 10 then [92; 110]
  else if c =? 13 then [92; 114]
  else if c =? 9 then [92; 116]
  else if (32 <=? c) && (c <=? 126) then [c]
  else if c <? 65536 then [92; 117] ++ hex4 c
  else
    let n := c - 65536 in
    let s1 := N.lor 55296 (N.land (N.shiftr n 10) 1023) in
    let s2 := N.lor 56320 (N.land n 1023) in
    [92; 117] ++ hex4 s1 ++ [92; 117] ++ hex4 s2.

Definition encode_basestring_ascii (s : str) : str :=
  [34] ++ mjoin (escape <$> s) ++ [34].

Definition newline_indent (level : nat) : str :=
  10 :: replicate (2 * level) 32.

(** The chunks of a container: opening bracket, the members one per line
    at the next level and separated by commas, closing bracket at the
    current level; an empty container has no line break. *)
Definition container (open close : char) (level : nat)
    (members : list str) : str :=
  match members with
  | [] => [open; close]
  | m :: ms =>
      [open] ++ newline_indent (S level) ++ m
      ++ mjoin ((λ m', [44] ++ newline_indent (S level) ++ m') <$> ms)
      ++ newline_indent level ++ [close]
  end.

Fixpoint encode (level : nat) (v : value) : str :=
  match v with
  | Int n => Py.str_int n
  | Str s => encode_basestring_ascii s
  | List l => container 91 93 level (encode (S level) <$> l)
  | Dict l =>
      container 123 125 level
        ((λ kv, encode_basestring_ascii kv.1 ++ [58; 32]
                ++ encode (S level) kv.2) <$> l)
  end.

Definition dumps_indent2 (v : value) : str := encode 0 v.

End Json.

(** ** The script *)

Import Re Py.

(** What the script sees of its environment: the path of the samples
    directory as it prints it; when the directory exists, its readable text
    files by name (a file holds text: what reading it with
    [errors='replace'] returns, and what was written to it); the other
    names present in the directory, which cannot be opened for reading (a
    subdirectory, a file without read permission); the names that cannot be
    opened for writing; and the characters the encoding of standard output
    can encode. *)
Record world := World {
  samples_path : str;
  samples : option (gmap string str);
  opaque : gset string;
  readonly : gset string;
  stdout_encodes : char → bool
}.

(** How a run of the script ends: [main] returns and the process exits with
    that status, or an exception escapes. *)
Inductive outcome :=
| Exit (status : Z)
| Raised (exception : string).


(** A run: what was printed, the file system left behind, how it ended. *)
Record run := Run {
  stdout : str;
  final : world;
  result : outcome
}.

(** [path / name], for a path that is not the root, as [str] shows it. *)
Definition joinpath (path name : str) : str := path ++ lit "/" ++ name.

(** [path.exists()] for a name in the samples directory. *)
Definition file_exists (w : world) (name : string) : bool :=
  bool_decide (is_Some (samples w ≫= (λ dir : gmap string str, dir !! name))
               ∨ name ∈ opaque w).

(** The file system after [content] was written to the file [name]. *)
Definition write_file (w : world) (name : string) (content : str) : world :=
  World (samples_path w)
        ((λ dir : gmap string str, <[name := content]> dir) <$> samples w)
        (opaque w) (readonly w) (stdout_encodes w).

(** *** Steps of the script *)

(** A step: from what was printed so far and the file system, it goes on
    with a value, or the run ends there. *)
Definition script (A : Type) : Type :=
  str → world → (A * str * world) + run.

#[global] Instance script_ret : MRet script :=
  λ A a out w, inl (a, out, w).

#[global] Instance script_bind : MBind script :=
  λ A B k m out w,
    match m out w with
    | inl (a, out', w') => k a out' w'
    | inr r => inr r
    end.

(** An exception nobody catches. *)
Definition raise {A : Type} (exception : string) : script A :=
  λ out w, inr (Run out w (Raised exception)).

(** [sys.stdout.write(t)]: the text is encoded first, and nothing of it is
    written when a character cannot be encoded. *)
Definition write_stdout (t : str) : script () :=
  λ out w,
    if forallb (stdout_encodes w) t then inl ((), out ++ t, w)
    else inr (Run out w (Raised "UnicodeEncodeError")).

(** The value of a call that raises [OSError] when it has none. *)
Definition or_OSError {A : Type} (x : option A) : script A :=
  match x with
  | Some a => mret a
  | None => raise "OSError"
  end.

(** [with open(name, 'w') as f: f.write(content)] in the samples
    directory. *)
Definition write_text (name : string) (content : str) : script () :=
  λ out w,
    if bool_decide (name ∈ readonly w) then
      inr (Run out w (Raised "OSError"))
    else inl ((), out, write_file w name content).

(** [for x in l: body(x)] *)
Fixpoint for_each {A : Type} (l : list A) (body : A → script ()) : script () :=
  match l with
  | [] => mret ()
  | x :: l' => body x ;; for_each l' body
  end.

(** The run of a script that returns the exit status. *)
Definition run_script (m : script Z) (w : world) : run :=
  match m [] w with
  | inl (status, out, w') => Run out w' (Exit status)
  | inr r => r
  end.

(** [re.compile(r'\x1b\[[0-9;]*m')] *)
Definition ANSI_ESCAPE : pattern :=
  [IN [LITERAL 27]; IN [LITERAL 91];
   MAX_REPEAT 0 [RANGE 48 57; LITERAL 59]; IN [LITERAL 109]].

(** [r'\w+'] *)
Definition WORD_RUN : pattern := [MAX_REPEAT 1 [CATEGORY_WORD]].

Section Script.

Variable unicode_isalnum : char → bool.

Definition strip_ansi (text : str) : str :=
  sub_empty unicode_isalnum ANSI_ESCAPE text.

(** [extract_tokens(filepath)], with the directory the path points into;
    opening a file that is not there raises. *)
Definition extract_tokens (dir : gmap string str) (name : string)
    : option (dict Z) :=
  content ← dir !! name;
  let clean_content := strip_ansi content in
  let tokens := findall unicode_isalnum WORD_RUN clean_content in
  Some (Counter tokens).

(** [key=lambda x: (-x[1], x[0])] *)
Definition sort_key (x : str * Z) : Z * str := ((- x.2)%Z, x.1).

Definition report_line (item : str * Z) : str :=
  print (format_4d item.2 ++ lit "x  " ++ item.1).

Definition output_record (item : str * Z) : Json.value :=
  Json.Dict [(lit "token", Json.Str item.1); (lit "count", Json.Int item.2)].

Definition main (w : world) : run :=
  let samples_dir := samples_path w in
  run_script
    match samples w with
    | None =>
        write_stdout
          (print (lit "Error: samples directory not found at " ++ samples_dir));;
        mret 1%Z
    | Some dir =>
        let filepath := joinpath samples_dir (lit "B.txt") in
        if negb (file_exists w "B.txt") then
          write_stdout (print (lit "Error: " ++ filepath ++ lit " not found"));;
          mret 1%Z
        else
          write_stdout
            (print (lit "Extracting tokens from " ++ lit "B.txt" ++ lit "..."
                    ++ [10]));;
          counter ← or_OSError (extract_tokens dir "B.txt");
          let sorted_items := sorted tuple_lt sort_key (items counter) in
          write_stdout
            (print (lit "Found " ++ str_int (Z.of_nat (len counter))
                    ++ lit " unique tokens" ++ [10]));;
          for_each sorted_items (λ item, write_stdout (report_line item));;
          let output_file := joinpath samples_dir (lit "tokens-audit.json") in
          let output := Json.List (output_record <$> sorted_items) in
          write_text "tokens-audit.json" (Json.dumps_indent2 output);;
          write_stdout
            (print ([10] ++ lit "Full token list written to " ++ output_file));;
          mret 0%Z
    end
    w.

End Script.

(** * The vocabulary of the specification *)

(** ** What the specification calls an escape sequence *)

(** A parameter character of a colour code: a digit or a semicolon. *)
Definition sgr_param (c : char) : Prop := 48 ≤ c ≤ 57 ∨ c = 59.

(** A text matching "ESC, [, parameters, m". *)
Definition SGR (e : str) : Prop :=
  ∃ ps, e = 27 :: 91 :: ps ++ [109] ∧ Forall sgr_param ps.

(** Position [i] of [s] lies inside a substring of [s] that is an escape
    sequence. *)
Definition in_sgr (s : str) (i : nat) : Prop :=
  ∃ pre e post, s = pre ++ e ++ post ∧ SGR e
                ∧ (length pre ≤ i < length pre + length e)%nat.

(** [s] has a substring that is an escape sequence. *)
Definition has_sgr (s : str) : Prop :=
  ∃ pre e post, s = pre ++ e ++ post ∧ SGR e.

(** The characters of [s] at the positions [keep] marks, in their order. *)
Fixpoint select (keep : list bool) (s : str) : str :=
  match keep, s with
  | k :: keep', c :: s' => if k then c :: select keep' s' else select keep' s'
  | _, _ => []
  end.

(** ** What the specification calls a token *)

(** The word characters as the specification lists them: an ASCII letter,
    an ASCII digit, the underscore, and outside ASCII the characters the
    Unicode database [uni] calls alphanumeric. *)
Definition ascii_letter (c : char) : Prop := 65 ≤ c ≤ 90 ∨ 97 ≤ c ≤ 122.

Definition ascii_digit (c : char) : Prop := 48 ≤ c ≤ 57.

Definition word_character (uni : char → bool) (c : char) : Prop :=
  ascii_letter c ∨ ascii_digit c ∨ c = 95 ∨ 128 ≤ c ∧ uni c = true.

(** [t] is a maximal run of word characters of [s], starting at offset [a]:
    one or more word characters, with no word character right before or
    right after. *)
Definition maximal_word_run (uni : char → bool) (s : str) (a : nat) (t : str)
    : Prop :=
  ∃ pre post,
    s = pre ++ t ++ post ∧ length pre = a
    ∧ t ≠ [] ∧ Forall (word_character uni) t
    ∧ (∀ c, last pre = Some c → ¬ word_character uni c)
    ∧ (∀ c, head post = Some c → ¬ word_character uni c).

(** The same in terms of the class the matcher tests, for the lemmas on the
    scan. *)
Definition word (uni : char → bool) (c : char) : Prop := is_word uni c = true.

Definition maximal_run (uni : char → bool) (s : str) (a : nat) (t : str)
    : Prop :=
  ∃ pre post,
    s = pre ++ t ++ post ∧ length pre = a
    ∧ t ≠ [] ∧ Forall (word uni) t
    ∧ (∀ c, last pre = Some c → ¬ word uni c)
    ∧ (∀ c, head post = Some c → ¬ word uni c).

(** ** The frequency table *)

(** The sum of the counts of a table. *)
Definition total (d : dict Z) : Z := foldr (λ kv acc, kv.2 + acc)%Z 0%Z d.

(** One more occurrence of [k]. *)
Definition count_one (d : dict Z) (k : str) : dict Z :=
  setitem d k (get d k 0 + 1)%Z.

(** ** The order of the report *)

(** [a ≤ b] in lexicographic order, by code points. *)
Inductive lex_le : str → str → Prop :=
| lex_le_nil b : lex_le [] b
| lex_le_lt x a y b : x < y → lex_le (x :: a) (y :: b)
| lex_le_eq x a b : lex_le a b → lex_le (x :: a) (x :: b).

(** An entry may stand before another: a greater count, or the same count
    and a token that is not greater. *)
Definition report_le (x y : str * Z) : Prop :=
  (x.2 > y.2)%Z ∨ x.2 = y.2 ∧ lex_le x.1 y.1.

(** ** What a run reads, builds and leaves *)

(** The table [extract_tokens] builds from a file's content. *)
Definition table_of (uni : char → bool) (content : str) : dict Z :=
  Counter (findall uni WORD_RUN (strip_ansi uni content)).

(** The report [main] prints and writes for a table. *)
Definition report_of (counter : dict Z) : list (str * Z) :=
  sorted tuple_lt sort_key (items counter).

(** What a run reads: the path it prints, and the input file, if the
    directory and the file exist. *)
Definition input_of (w : world) : str * option (option str) :=
  (samples_path w, (λ dir : gmap string str, dir !! "B.txt") <$> samples w).

(** What a run leaves in the output file. *)
Definition output_file_of (w : world) : option str :=
  samples w ≫= (λ dir : gmap string str, dir !! "tokens-audit.json").



(** What a run depends on besides its input: the encoding of standard
    output, whether [B.txt] is a name that cannot be read, and whether the
    output file can be written. *)
Definition environment_of (w : world) : (char → bool) * bool * bool :=
  (stdout_encodes w, bool_decide ("B.txt" ∈ opaque w),
   bool_decide ("tokens-audit.json" ∈ readonly w)).

(** The file system a run leaves: as it was, or with the output file
    written. *)
Definition left_behind (w : world) (written : option str) : world :=
  match written with
  | Some json => write_file w "tokens-audit.json" json
  | None => w
  end.

(** What a run that succeeds prints, and what it writes, for the content of
    the input file. *)
Definition success_stdout (uni : char → bool) (path content : str) : str :=
  print (lit "Extracting tokens from B.txt..." ++ [10])
  ++ print (lit "Found " ++ str_int (Z.of_nat (len (table_of uni content)))
            ++ lit " unique tokens" ++ [10])
  ++ mjoin (report_line <$> report_of (table_of uni content))
  ++ print ([10] ++ lit "Full token list written to "
            ++ (path ++ lit "/tokens-audit.json")).

Definition success_json (uni : char → bool) (content : str) : str :=
  Json.dumps_indent2
    (Json.List (output_record <$> report_of (table_of uni content))).

(** ** Sample inputs *)



(** ["\x1b[31merror\x1b[0m: error code 42\n"] *)
Definition sample_content : str :=
  [27] ++ lit "[31merror" ++ [27] ++ lit "[0m: error code 42" ++ [10].

Definition sample_world : world :=
  World (lit "samples") (Some {[ "B.txt" := sample_content ]}) ∅ ∅ (λ _, true).

(** A file with no word character once the colour codes are gone. *)
Definition blank_content : str := [27] ++ lit "[1m" ++ lit "-- ::" ++ [10].


(** A character database with no alphanumeric character outside ASCII. *)
Definition ascii_only : char → bool := λ _, false.

(** ** Further vocabulary *)

(** How often [k] occurs in [toks]. *)
Definition occurrences (k : str) (toks : list str) : nat :=
  length (filter (λ t, t = k) toks).

(** A character that can occur in an escape sequence. *)
Definition sgr_char (c : char) : Prop :=
  c = 27 ∨ c = 91 ∨ sgr_param c ∨ c = 109.

(** The tokens [extract_tokens] finds in a file's content. *)
Definition tokens_of (uni : char → bool) (content : str) : list str :=
  findall uni WORD_RUN (strip_ansi uni content).

(** The content of a file of the samples directory, if both exist. *)
Definition read_file (w : world) (name : string) : option str :=
  samples w ≫= (λ dir : gmap string str, dir !! name).

(** A character database in which every character above ASCII is
    alphanumeric, and a file with a token outside ASCII. *)
Definition all_alnum : char → bool := λ _, true.

Definition accent_content : str := lit "caf" ++ [233] ++ [10].

Definition accent_world : world :=
  World (lit "samples") (Some {[ "B.txt" := accent_content ]}) ∅ ∅ (λ _, true).

(** A printable ASCII character, or a newline. *)
Definition plain_ascii (c : char) : Prop := c = 10 ∨ 32 ≤ c ≤ 126.

(** * Lemmas *)

(** ** The matcher on the escape pattern *)

#[local] Arguments in_set : simpl never.

Section AnsiMatch.

Variable uni : char → bool.

Local Abbreviation params := [RANGE 48 57; LITERAL 59].
Local Abbreviation tail := [IN [LITERAL 109]].

Lemma in_params c : in_set uni params c = true ↔ sgr_param c.
Proof.
  unfold in_set, sgr_param; simpl.
  rewrite !orb_true_iff, andb_true_iff, !N.leb_le, N.eqb_eq.
  intuition (try lia; try discriminate).
Qed.

Lemma in_params_m : in_set uni params 109 = false.
Proof. reflexivity. Qed.

Lemma tail_match s n :
  sre_match uni tail s = Some n ↔ n = 1%nat ∧ ∃ rest, s = 109 :: rest.
Proof.
  destruct s as [|c s]; simpl.
  - split; [discriminate | intros [_ [? ?]]; discriminate].
  - unfold in_set; simpl. rewrite orb_false_r.
    destruct (N.eqb_spec c 109) as [->|Hc]; simpl.
    + split; [intros [= <-]; eauto | intros [-> _]; reflexivity].
    + split; [discriminate | intros [_ [? [= ? ?]]]; congruence].
Qed.

Lemma params_loop_complete ps rest :
  Forall sgr_param ps →
  repeat_max (in_set uni params) (sre_match uni tail) 0 (ps ++ 109 :: rest)
  = Some (S (length ps)).
Proof.
  induction 1 as [|c ps Hc _ IH]; cbn [repeat_max app pred length].
  - rewrite in_params_m. by apply tail_match; eauto.
  - apply in_params in Hc. rewrite Hc, IH. reflexivity.
Qed.

Lemma params_loop_sound s n :
  repeat_max (in_set uni params) (sre_match uni tail) 0 s = Some n →
  ∃ ps rest, s = ps ++ 109 :: rest ∧ Forall sgr_param ps ∧ n = S (length ps).
Proof.
  revert n; induction s as [|c s IH]; intros n; cbn [repeat_max pred].
  - intros [_ [? [=]]]%tail_match.
  - destruct (in_set uni params c) eqn:Hc.
    + destruct (repeat_max _ _ 0 s) as [m|] eqn:Hm.
      * intros [= <-]. destruct (IH m eq_refl) as (ps & rest & -> & Hps & ->).
        exists (c :: ps), rest. split_and!; [done | | done].
        constructor; [by apply in_params | done].
      * intros [_ [? [= -> _]]]%tail_match.
        rewrite in_params_m in Hc; discriminate.
    + intros [-> [? [= -> <-]]]%tail_match.
      exists [], s. split_and!; [done | constructor | done].
Qed.

Lemma ansi_match_unfold c0 c1 s :
  sre_match uni ANSI_ESCAPE (c0 :: c1 :: s) =
  if in_set uni [LITERAL 27] c0 then
    S <$> (if in_set uni [LITERAL 91] c1 then
             S <$> repeat_max (in_set uni params) (sre_match uni tail) 0 s
           else None)
  else None.
Proof. reflexivity. Qed.

Lemma ansi_match_sound s n :
  sre_match uni ANSI_ESCAPE s = Some n →
  ∃ e rest, s = e ++ rest ∧ SGR e ∧ length e = n.
Proof.
  destruct s as [|c0 [|c1 s]]; [discriminate | |].
  - unfold ANSI_ESCAPE. cbn [sre_match].
    destruct (in_set uni [LITERAL 27] c0); discriminate.
  - rewrite ansi_match_unfold.
    unfold in_set at 1 2; simpl existsb. rewrite !orb_false_r.
    destruct (N.eqb_spec c0 27) as [->|]; [|discriminate].
    destruct (N.eqb_spec c1 91) as [->|]; [|discriminate].
    destruct (repeat_max _ _ 0 s) as [m|] eqn:Hm; [|discriminate].
    intros [= <-].
    destruct (params_loop_sound _ _ Hm) as (ps & rest & -> & Hps & ->).
    exists (27 :: 91 :: ps ++ [109]), rest. split_and!.
    + simpl. by rewrite <- app_assoc.
    + by exists ps.
    + simpl. rewrite length_app. simpl. lia.
Qed.

Lemma ansi_match_complete e rest :
  SGR e → sre_match uni ANSI_ESCAPE (e ++ rest) = Some (length e).
Proof.
  intros (ps & -> & Hps). cbn [app]. rewrite <- app_assoc. cbn [app].
  rewrite ansi_match_unfold, (params_loop_complete ps rest Hps).
  change (in_set uni [LITERAL 27] 27) with true.
  change (in_set uni [LITERAL 91] 91) with true.
  simpl. rewrite length_app. simpl. do 3 f_equal. lia.
Qed.

End AnsiMatch.

(** ** Shape of an escape sequence *)

Lemma SGR_length e : SGR e → (3 ≤ length e)%nat.
Proof. intros (ps & -> & _). simpl. rewrite length_app. simpl. lia. Qed.

(** ESC opens an escape sequence and occurs nowhere else in it. *)
Lemma SGR_esc e j : SGR e → e !! j = Some 27 → j = 0%nat.
Proof.
  intros (ps & -> & Hps) Hj.
  destruct j as [|[|j]]; [done | discriminate |]. exfalso.
  simpl in Hj. apply lookup_app_Some in Hj as [Hj | [_ Hj]].
  - rewrite Forall_lookup in Hps. specialize (Hps _ _ Hj).
    unfold sgr_param in Hps. lia.
  - destruct (j - length ps)%nat; discriminate.
Qed.

Lemma SGR_head e : SGR e → e !! 0%nat = Some 27.
Proof. by intros (ps & -> & _). Qed.

Section Occurrences.

Variable uni : char → bool.

(** Two escape sequences starting at the same place are the same one. *)
Lemma SGR_prefix_unique e1 r1 e2 r2 :
  e1 ++ r1 = e2 ++ r2 → SGR e1 → SGR e2 → length e1 = length e2.
Proof.
  intros Heq H1 H2.
  pose proof (ansi_match_complete uni e1 r1 H1) as M1.
  pose proof (ansi_match_complete uni e2 r2 H2) as M2.
  rewrite Heq in M1. congruence.
Qed.

(** An escape sequence that starts inside another one is that one. *)
Lemma SGR_no_overlap e rest pre e2 post :
  SGR e → SGR e2 → e ++ rest = pre ++ e2 ++ post →
  (length pre < length e)%nat →
  (length pre + length e2 ≤ length e)%nat.
Proof.
  intros He He2 Heq Hlt.
  destruct pre as [|c pre].
  - simpl in *. rewrite (SGR_prefix_unique _ _ _ _ Heq He He2). lia.
  - exfalso.
    assert ((e ++ rest) !! length (c :: pre) = Some 27) as Hesc.
    { rewrite Heq, lookup_app_r by lia. rewrite Nat.sub_diag.
      rewrite lookup_app_l by (apply SGR_length in He2; lia).
      by apply SGR_head. }
    rewrite lookup_app_l in Hesc by done.
    apply SGR_esc in Hesc; [discriminate | done].
Qed.

Lemma in_sgr_shift p rest j :
  in_sgr rest j → in_sgr (p ++ rest) (length p + j).
Proof.
  intros (pre & e & post & -> & He & Hj).
  exists (p ++ pre), e, post. rewrite length_app, <- app_assoc.
  split_and!; [done | done | lia | lia].
Qed.

(** Past a prefix [p] in which every escape sequence that starts also
    ends, the escape sequences are those of the rest. *)
Lemma in_sgr_unshift p rest i :
  (∀ pre e post, p ++ rest = pre ++ e ++ post → SGR e →
     (length pre < length p → length pre + length e ≤ length p)%nat) →
  (length p ≤ i)%nat → in_sgr (p ++ rest) i → in_sgr rest (i - length p).
Proof.
  intros Hclosed Hi (pre & e & post & Heq & He & Hin).
  assert (length p ≤ length pre)%nat as Hle.
  { destruct (decide (length pre < length p)%nat) as [Hlt|]; [|lia].
    specialize (Hclosed _ _ _ Heq He Hlt). lia. }
  apply app_eq_inv in Heq as [(k & -> & Hk) | (k & -> & ->)].
  - rewrite length_app in Hle.
    assert (k = []) as -> by (destruct k; [done | simpl in Hle; lia]).
    rewrite app_nil_r in *. simpl in Hk.
    exists [], e, post. simpl. split_and!; [done | done | lia | lia].
  - exists k, e, post. rewrite length_app in Hin.
    split_and!; [done | done | lia | lia].
Qed.

Lemma no_match_no_prefix s :
  (∀ n, sre_match uni ANSI_ESCAPE s ≠ Some (S n)) →
  ∀ e rest, s = e ++ rest → ¬ SGR e.
Proof.
  intros Hno e rest -> He.
  pose proof (ansi_match_complete uni e rest He) as M.
  pose proof (SGR_length e He).
  destruct (length e) as [|n]; [lia |]. by apply (Hno n).
Qed.

End Occurrences.

(** ** Selecting by a mask *)

Lemma select_dropped e keep rest :
  select (replicate (length e) false ++ keep) (e ++ rest) = select keep rest.
Proof. induction e as [|c e IH]; [done | exact IH]. Qed.

Lemma select_length keep s :
  length keep = length s →
  (length (select keep s) ≤ length s)%nat
  ∧ (length (select keep s) = length s ↔ ∀ i, keep !! i ≠ Some false).
Proof.
  revert s; induction keep as [|k keep IH]; intros [|c s] Hlen;
    try discriminate.
  - simpl. split; [lia | split; [by intros _ [|?] | done]].
  - injection Hlen as Hlen. destruct (IH s Hlen) as [Hle Heq].
    destruct k; simpl.
    + split; [lia |]. split.
      * intros [= E] [|i]; [done | by apply Heq].
      * intros Hall. f_equal. apply Heq. intros i. apply (Hall (S i)).
    + split; [lia |]. split; [lia |]. intros Hall. by destruct (Hall 0%nat).
Qed.

(** ** The scanning loops, unfolded *)

Section Scans.

Variable uni : char → bool.

Lemma sub_empty_cons pat c s :
  sub_empty uni pat (c :: s) =
  match sre_match uni pat (c :: s) with
  | Some (S n) => sub_empty uni pat (drop n s)
  | _ => c :: sub_empty uni pat s
  end.
Proof.
  simp sub_empty.
  destruct (sre_match uni pat (c :: s)) as [[|n]|]; reflexivity.
Qed.

Lemma findall_cons pat c s :
  findall uni pat (c :: s) =
  match sre_match uni pat (c :: s) with
  | Some (S n) => (c :: take n s) :: findall uni pat (drop n s)
  | Some O => [] :: findall uni pat s
  | None => findall uni pat s
  end.
Proof.
  simp findall.
  destruct (sre_match uni pat (c :: s)) as [[|n]|]; reflexivity.
Qed.

(** The stripper keeps a character exactly when no escape sequence of the
    input covers it. *)
Lemma strip_ansi_mask s :
  ∃ keep : list bool,
    length keep = length s
    ∧ strip_ansi uni s = select keep s
    ∧ ∀ i, (i < length s)%nat → keep !! i = Some false ↔ in_sgr s i.
Proof.
  remember (length s) as len eqn:Hlen.
  revert s Hlen; induction len as [len IH] using lt_wf_ind; intros s ->.
  destruct s as [|c s].
  { exists []. split_and!; [done | done | simpl; intros; lia]. }
  unfold strip_ansi in *. rewrite sub_empty_cons.
  destruct (sre_match uni ANSI_ESCAPE (c :: s)) as [[|n]|] eqn:Hm;
    [ | | ].
  2:{ (* a match of length [S n]: dropped as a whole *)
    destruct (ansi_match_sound uni _ _ Hm) as (e & rest & Heq & He & Hn).
    assert (drop n s = rest) as ->.
    { change (drop n s) with (drop (S n) (c :: s)).
      by rewrite Heq, <- Hn, drop_app_length. }
    destruct (IH (length rest)) with (s := rest) as (keep & Hk & Hsel & Hpos);
      [ rewrite Heq, length_app; lia | done | ].
    exists (replicate (length e) false ++ keep). rewrite Heq. split_and!.
    - by rewrite !length_app, length_replicate, Hk.
    - by rewrite select_dropped.
    - intros i Hi. destruct (decide (i < length e)%nat) as [Hin | Hout].
      + rewrite lookup_app_l by (by rewrite length_replicate).
        split.
        * intros _. exists [], e, rest. simpl. split_and!; [done | done | lia | lia].
        * intros _. by apply lookup_replicate.
      + rewrite lookup_app_r by (rewrite length_replicate; lia).
        rewrite length_replicate, length_app in *.
        rewrite Hpos by lia. split.
        * intros H. apply (in_sgr_shift e) in H.
          by replace (length e + (i - length e))%nat with i in H by lia.
        * apply in_sgr_unshift; [|lia].
          intros pre e2 post Heq2 He2. by eapply SGR_no_overlap. }
  all: (* no match here: the character is copied *)
    assert (∀ e rest, c :: s = e ++ rest → ¬ SGR e) as Hnone
      by (apply (no_match_no_prefix uni); intros n; rewrite Hm; congruence);
    destruct (IH (length s)) with (s := s) as (keep & Hk & Hsel & Hpos);
      [ simpl; lia | done | ];
    exists (true :: keep); split_and!;
      [ by rewrite !length_cons, Hk
      | by simpl; rewrite Hsel
      | intros [|i] Hi ].
  all: simpl in Hi.
  1,3: split; [done |];
    intros (pre & e & post & Heq & He & Hin);
    destruct pre; [by destruct (Hnone e post Heq He) | simpl in Hin; lia].
  all: simpl; rewrite Hpos by lia; split.
  1,3: intros H; apply (in_sgr_shift [c]) in H; exact H.
  all: intros H; replace i with (S i - length [c])%nat by (simpl; lia);
    apply in_sgr_unshift; [ | simpl; lia | exact H ];
    intros pre e post Heq He Hlt; destruct pre; [|simpl in Hlt; lia];
    by destruct (Hnone e post Heq He).
Qed.

End Scans.

(** ** The matcher on the word pattern *)

Section WordMatch.

Variable uni : char → bool.

Local Abbreviation always := (sre_match uni []).
Local Abbreviation word := (word uni).

Lemma in_word_set c : in_set uni [CATEGORY_WORD] c = is_word uni c.
Proof. unfold in_set. simpl. apply orb_false_r. Qed.

Lemma repeat_max_total p s : is_Some (repeat_max p always 0 s).
Proof.
  induction s as [|c s [n Hn]]; cbn [repeat_max pred]; [by eexists |].
  destruct (p c); [rewrite Hn|]; by eexists.
Qed.

(** The greedy loop takes the longest prefix in the set. *)
Lemma repeat_max_sound p min s n :
  repeat_max p always min s = Some n →
  ∃ t rest, s = t ++ rest ∧ length t = n ∧ (min ≤ n)%nat
            ∧ Forall (λ c, p c = true) t
            ∧ (∀ c, head rest = Some c → p c = false).
Proof.
  revert min n; induction s as [|c s IH]; intros min n;
    cbn [repeat_max].
  - destruct min; [|discriminate]. intros [= <-].
    exists [], []. split_and!; [done | done | lia | constructor | done].
  - destruct (p c) eqn:Hc.
    + destruct (repeat_max p always (pred min) s) as [m|] eqn:Hm.
      * intros [= <-].
        destruct (IH _ _ Hm) as (t & rest & -> & <- & Hmin & Ht & Hrest).
        exists (c :: t), rest.
        split_and!; [done | done | simpl; lia | by constructor | done].
      * destruct min as [|min]; [|discriminate].
        destruct (repeat_max_total p s) as [? Hs]. cbn [pred] in Hm. congruence.
    + destruct min; [|discriminate]. intros [= <-].
      exists [], (c :: s).
      split_and!; [done | done | lia | constructor | by intros ? [= <-]].
Qed.

Lemma word_match_sound s n :
  sre_match uni WORD_RUN s = Some n →
  ∃ t rest, s = t ++ rest ∧ length t = n ∧ t ≠ [] ∧ Forall word t
            ∧ (∀ c, head rest = Some c → ¬ word c).
Proof.
  intros Hm. apply repeat_max_sound in Hm
    as (t & rest & -> & <- & Hmin & Ht & Hrest).
  exists t, rest. split_and!; [done | done | | |].
  - by destruct t; [simpl in Hmin; lia |].
  - eapply Forall_impl; [exact Ht |]. intros c Hc. unfold word.
    by rewrite <- in_word_set.
  - intros c Hc. specialize (Hrest c Hc). rewrite in_word_set in Hrest.
    unfold word. congruence.
Qed.

Lemma word_match_none c s :
  sre_match uni WORD_RUN (c :: s) = None → ¬ word c.
Proof.
  unfold word.
  change (sre_match uni WORD_RUN (c :: s))
    with (repeat_max (in_set uni [CATEGORY_WORD]) always 1 (c :: s)).
  cbn [repeat_max pred]. rewrite in_word_set.
  destruct (is_word uni c); [|done].
  destruct (repeat_max_total (in_set uni [CATEGORY_WORD]) s) as [? ->].
  discriminate.
Qed.

End WordMatch.

(** ** Maximal runs along the scan *)

Section RunFacts.

Variable uni : char → bool.

Local Abbreviation word := (word uni).
Local Abbreviation maximal_run := (maximal_run uni).

(** A run of word characters closed on the right is determined by where
    it starts. *)
Lemma closed_run_unique t1 r1 t2 r2 :
  t1 ++ r1 = t2 ++ r2 → Forall word t1 → Forall word t2 →
  (∀ c, head r1 = Some c → ¬ word c) →
  (∀ c, head r2 = Some c → ¬ word c) →
  t1 = t2.
Proof.
  revert t2; induction t1 as [|c t1 IH]; intros [|c2 t2] Heq H1 H2 Hr1 Hr2.
  - done.
  - simpl in Heq. subst r1. apply Forall_cons in H2 as [Hc _].
    by destruct (Hr1 c2).
  - simpl in Heq. subst r2. apply Forall_cons in H1 as [Hc _].
    by destruct (Hr2 c).
  - injection Heq as -> Heq.
    apply Forall_cons in H1 as [_ H1]. apply Forall_cons in H2 as [_ H2].
    f_equal. by apply IH.
Qed.

(** Past a character that is not a word character. *)
Lemma maximal_run_skip c s a t :
  ¬ word c →
  maximal_run (c :: s) a t ↔ ∃ a', a = S a' ∧ maximal_run s a' t.
Proof.
  intros Hc. split.
  - intros (pre & post & Heq & <- & Hne & Ht & Hl & Hr).
    destruct pre as [|c' pre].
    + destruct t as [|x t]; [done |]. injection Heq as <- _.
      apply Forall_cons in Ht as [Hx _]. done.
    + injection Heq as <- ->. exists (length pre). split; [done |].
      exists pre, post. split_and!; try done.
      intros x Hx. apply Hl. rewrite last_cons, Hx. done.
  - intros (a' & -> & pre & post & -> & <- & Hne & Ht & Hl & Hr).
    exists (c :: pre), post. split_and!; try done.
    intros x. rewrite last_cons. destruct (last pre) as [y|] eqn:Hy.
    + intros [= <-]. by apply Hl.
    + by intros [= <-].
Qed.

(** Past a run [t0] of word characters closed on the right. *)
Lemma maximal_run_after t0 rest a t :
  t0 ≠ [] → Forall word t0 → (∀ c, head rest = Some c → ¬ word c) →
  maximal_run (t0 ++ rest) a t ↔
    (a = 0%nat ∧ t = t0)
    ∨ ∃ a', a = (length t0 + a')%nat ∧ maximal_run rest a' t.
Proof.
  intros Hne0 Ht0 Hrest. split.
  - intros (pre & post & Heq & <- & Hne & Ht & Hl & Hr).
    destruct (decide (pre = [])) as [-> | Hpre].
    + left. split; [done |]. symmetry.
      by eapply closed_run_unique.
    + right. apply app_eq_inv in Heq as [(k & -> & Hk) | (k & -> & ->)].
      * exfalso. apply last_is_Some in Hpre as [x Hx].
        apply (Hl x Hx). rewrite Forall_app in Ht0. destruct Ht0 as [Hp _].
        rewrite Forall_forall in Hp. apply Hp.
        by apply last_Some_elem_of.
      * exists (length k). rewrite length_app. split; [done |].
        exists k, post. split_and!; try done.
        intros x Hx. apply Hl. rewrite last_app, Hx. done.
  - intros [[-> ->] | (a' & -> & pre & post & -> & <- & Hne & Ht & Hl & Hr)].
    + exists [], rest. split_and!; done.
    + exists (t0 ++ pre), post. rewrite length_app, <- app_assoc.
      split_and!; try done.
      intros x. rewrite last_app. destruct (last pre) as [y|] eqn:Hy.
      * intros [= <-]. by apply Hl.
      * apply last_None in Hy as ->. exfalso.
        destruct t as [|y t]; [done |].
        apply Forall_cons in Ht as [Hy _]. by apply (Hrest y).
Qed.

End RunFacts.

(** ** The tokenizer *)

Section Tokenizer.

Variable uni : char → bool.

Lemma findall_nil pat :
  findall uni pat [] =
  match sre_match uni pat [] with Some _ => [[]] | None => [] end.
Proof. by simp findall. Qed.

(** The tokens, each with the offset it was found at, are the maximal
    runs of the input, from left to right. *)
Lemma findall_word_runs s :
  ∃ starts : list nat,
    length starts = length (findall uni WORD_RUN s)
    ∧ (∀ i j a t b, (i < j)%nat →
         starts !! i = Some a → findall uni WORD_RUN s !! i = Some t →
         starts !! j = Some b → (a + length t ≤ b)%nat)
    ∧ (∀ a t, maximal_run uni s a t ↔
         ∃ j, starts !! j = Some a ∧ findall uni WORD_RUN s !! j = Some t).
Proof.
  remember (length s) as len eqn:Hlen.
  revert s Hlen; induction len as [len IH] using lt_wf_ind; intros s ->.
  destruct s as [|c s].
  { rewrite findall_nil. exists []. split_and!; [done | done |].
    intros a t. split.
    - intros (pre & post & Heq & _ & Hne & _).
      symmetry in Heq. apply app_eq_nil in Heq as [_ Heq].
      by apply app_eq_nil in Heq as [-> _].
    - by intros (j & Hj & _). }
  rewrite findall_cons.
  destruct (sre_match uni WORD_RUN (c :: s)) as [[|n]|] eqn:Hm.
  - apply word_match_sound in Hm as (t & rest & _ & Hl & Hne & _).
    by destruct t.
  - apply word_match_sound in Hm as (t0 & rest & Heq & Hl & Hne & Ht0 & Hr).
    assert (c :: take n s = t0) as ->.
    { change (c :: take n s) with (take (S n) (c :: s)).
      by rewrite Heq, <- Hl, take_app_length. }
    assert (drop n s = rest) as ->.
    { change (drop n s) with (drop (S n) (c :: s)).
      by rewrite Heq, <- Hl, drop_app_length. }
    destruct (IH (length rest)) with (s := rest)
      as (starts & Hlen & Hord & Hruns);
      [ rewrite Heq, length_app; lia | done | ].
    exists (0%nat :: ((λ a, length t0 + a)%nat <$> starts)). split_and!.
    + simpl. by rewrite length_fmap, Hlen.
    + intros [|i] [|j] a t b Hij; simpl; try lia.
      * intros [= <-] [= <-] Hb.
        apply list_lookup_fmap_Some in Hb as (b' & -> & _). lia.
      * intros Ha Ht Hb.
        apply list_lookup_fmap_Some in Ha as (a' & -> & Ha).
        apply list_lookup_fmap_Some in Hb as (b' & -> & Hb).
        assert (i < j)%nat as Hij' by lia.
        pose proof (Hord i j a' t b' Hij' Ha Ht Hb). lia.
    + intros a t. rewrite Heq, (maximal_run_after uni) by done. split.
      * intros [[-> ->] | (a' & -> & Hrun)].
        -- by exists 0%nat.
        -- apply Hruns in Hrun as (j & Hj & Htj). exists (S j). simpl.
           by rewrite list_lookup_fmap, Hj.
      * intros ([|j] & Hj & Htj); simpl in *.
        -- left. injection Hj as <-. injection Htj as <-. done.
        -- right. apply list_lookup_fmap_Some in Hj as (a' & -> & Hj).
           exists a'. split; [done |]. apply Hruns. by exists j.
  - apply word_match_none in Hm.
    destruct (IH (length s)) with (s := s)
      as (starts & Hlen & Hord & Hruns); [ simpl; lia | done | ].
    exists (S <$> starts). split_and!.
    + by rewrite length_fmap.
    + intros i j a t b Hij Ha Ht Hb.
      apply list_lookup_fmap_Some in Ha as (a' & -> & Ha).
      apply list_lookup_fmap_Some in Hb as (b' & -> & Hb).
      pose proof (Hord i j a' t b' Hij Ha Ht Hb). lia.
    + intros a t. rewrite (maximal_run_skip uni) by done. split.
      * intros (a' & -> & Hrun).
        apply Hruns in Hrun as (j & Hj & Htj). exists j.
        by rewrite list_lookup_fmap, Hj.
      * intros (j & Hj & Htj).
        apply list_lookup_fmap_Some in Hj as (a' & -> & Hj).
        exists a'. split; [done |]. apply Hruns. by exists j.
Qed.

(** Every token is one or more word characters. *)
Lemma findall_word_nonempty s t :
  t ∈ findall uni WORD_RUN s → t ≠ [] ∧ Forall (word uni) t.
Proof.
  intros Hin. apply list_elem_of_lookup in Hin as [j Hj].
  destruct (findall_word_runs s) as (starts & Hlen & _ & Hruns).
  destruct (lookup_lt_is_Some_2 starts j) as [a Ha].
  { rewrite Hlen. by eapply lookup_lt_Some. }
  destruct (proj2 (Hruns a t)) as (pre & post & _ & _ & Hne & Ht & _);
    [by exists j | done].
Qed.

End Tokenizer.

(** ** Counting *)

Section CounterFacts.

Local Open Scope Z_scope.

Lemma Counter_foldl toks :
  Counter toks = foldl count_one [] toks.
Proof. reflexivity. Qed.

Lemma count_one_total d k : total (count_one d k) = total d + 1.
Proof.
  unfold count_one. induction d as [|[k' v] d IH]; simpl; [lia |].
  destruct (decide (k' = k)); simpl; lia.
Qed.

Lemma count_one_positive d k :
  Forall (λ kv, 1 ≤ kv.2) d → Forall (λ kv, 1 ≤ kv.2) (count_one d k).
Proof.
  unfold count_one. induction 1 as [|[k' v] d Hv Hd IH]; simpl.
  - constructor; [simpl; lia | constructor].
  - destruct (decide (k' = k)); constructor; simpl in *; try done. lia.
Qed.

Lemma count_one_keys d k :
  (count_one d k).*1 = d.*1 ∧ k ∈ d.*1
  ∨ (count_one d k).*1 = d.*1 ++ [k] ∧ k ∉ d.*1.
Proof.
  unfold count_one. generalize (get d k 0 + 1). intros v.
  induction d as [|[k' v'] d IH]; csimpl.
  - right. split; [done | apply not_elem_of_nil].
  - destruct (decide (k' = k)) as [->|Hne]; csimpl.
    + left. split; [done | left].
    + destruct IH as [[-> Hin] | [-> Hout]].
      * left. split; [done | by right].
      * right. split; [done |]. rewrite not_elem_of_cons. done.
Qed.

Lemma foldl_count_total d toks :
  total (foldl count_one d toks) = total d + Z.of_nat (length toks).
Proof.
  revert d; induction toks as [|t toks IH]; intros d; simpl; [lia |].
  rewrite IH, count_one_total. lia.
Qed.

Lemma foldl_count_positive d toks :
  Forall (λ kv, 1 ≤ kv.2) d →
  Forall (λ kv, 1 ≤ kv.2) (foldl count_one d toks).
Proof.
  revert d; induction toks as [|t toks IH]; intros d Hd; simpl; [done |].
  by apply IH, count_one_positive.
Qed.

Lemma foldl_count_keys d toks k :
  k ∈ (foldl count_one d toks).*1 → k ∈ d.*1 ∨ k ∈ toks.
Proof.
  revert d; induction toks as [|t toks IH]; intros d; simpl; [by left |].
  intros [Hk | Hk]%IH; [|right; by right].
  destruct (count_one_keys d t) as [[E _] | [E _]]; rewrite E in Hk.
  - by left.
  - apply elem_of_app in Hk as [Hk | Hk%list_elem_of_singleton];
      [by left | right; subst; left].
Qed.

Lemma foldl_count_NoDup d toks :
  NoDup d.*1 → NoDup (foldl count_one d toks).*1.
Proof.
  revert d; induction toks as [|t toks IH]; intros d Hd; simpl; [done |].
  apply IH. destruct (count_one_keys d t) as [[-> _] | [-> Hout]]; [done |].
  apply NoDup_app. split_and!; [done | | apply NoDup_singleton].
  intros x Hx ->%list_elem_of_singleton. done.
Qed.

End CounterFacts.

(** ** Comparing keys *)

Lemma str_lt_false a b : str_lt b a = false ↔ lex_le a b.
Proof.
  split.
  - revert b; induction a as [|x a IH]; intros b H; [constructor |].
    destruct b as [|y b]; [discriminate |]. simpl in H.
    apply orb_false_iff in H as [Hlt H]. apply N.ltb_ge in Hlt.
    destruct (N.eqb_spec y x) as [->|Hne]; simpl in H.
    + apply lex_le_eq, IH, H.
    + apply lex_le_lt. lia.
  - induction 1 as [b | x a y b Hlt | x a b _ IH]; simpl.
    + by destruct b.
    + apply orb_false_iff. split; [apply N.ltb_ge; lia |].
      destruct (N.eqb_spec y x); [lia | done].
    + rewrite N.ltb_irrefl, N.eqb_refl. exact IH.
Qed.

Lemma str_lt_true a b : str_lt a b = true → lex_le a b.
Proof.
  revert b; induction a as [|x a IH]; intros [|y b] H;
    try discriminate; [constructor |].
  simpl in H. apply orb_true_iff in H as [Hlt | H].
  - apply lex_le_lt. by apply N.ltb_lt.
  - apply andb_true_iff in H as [->%N.eqb_eq H]. apply lex_le_eq, IH, H.
Qed.

Lemma lex_le_trans a b c : lex_le a b → lex_le b c → lex_le a c.
Proof.
  intros Hab; revert c; induction Hab as [b | x a y b Hlt | x a b _ IH];
    intros c Hbc; [constructor | |]; inversion Hbc; subst.
  - apply lex_le_lt. lia.
  - by apply lex_le_lt.
  - by apply lex_le_lt.
  - apply lex_le_eq. by apply IH.
Qed.

Lemma sort_key_not_lt x y :
  tuple_lt (sort_key y) (sort_key x) = false ↔ report_le x y.
Proof.
  unfold tuple_lt, sort_key, report_le; simpl.
  rewrite orb_false_iff, Z.ltb_ge, andb_false_iff, Z.eqb_neq, str_lt_false.
  destruct (decide (x.2 = y.2)) as [E | N].
  - split; [intros [_ [? | ?]]; [lia | by right] |].
    intros [? | [_ ?]]; [lia |]. split; [lia | by right].
  - split; [intros [? _]; left; lia |].
    intros [? | [? _]]; [|done]. split; [lia | left; lia].
Qed.

Lemma sort_key_lt x y :
  tuple_lt (sort_key x) (sort_key y) = true → report_le x y.
Proof.
  unfold tuple_lt, sort_key, report_le; simpl.
  rewrite orb_true_iff, Z.ltb_lt, andb_true_iff, Z.eqb_eq.
  intros [H | [H Hs%str_lt_true]]; [left; lia | right; split; [lia | done]].
Qed.

Lemma report_le_trans x y z : report_le x y → report_le y z → report_le x z.
Proof.
  unfold report_le. intros [H1 | [E1 L1]] [H2 | [E2 L2]];
    [left; lia | left; lia | left; lia |].
  right. split; [lia | by eapply lex_le_trans].
Qed.

(** *** [sorted] sorts *)

Section SortedFacts.

Context {A K : Type} (lt : K → K → bool) (key : A → K).
Context (R : A → A → Prop).
Hypothesis R_trans : ∀ x y z, R x y → R y z → R x z.
Hypothesis lt_R : ∀ x y, lt (key x) (key y) = true → R x y.
Hypothesis not_lt_R : ∀ x y, lt (key x) (key y) = false → R y x.

Lemma insort_perm x l : insort lt key x l ≡ₚ x :: l.
Proof.
  induction l as [|y l IH]; simpl; [done |].
  destruct (lt (key x) (key y)); [done |]. by rewrite IH, Permutation_swap.
Qed.

Lemma foldl_insort_perm acc l :
  foldl (λ acc x, insort lt key x acc) acc l ≡ₚ acc ++ l.
Proof.
  revert acc; induction l as [|x l IH]; intros acc; simpl.
  - by rewrite app_nil_r.
  - rewrite IH, insort_perm. simpl. apply Permutation_middle.
Qed.

Lemma sorted_perm l : sorted lt key l ≡ₚ l.
Proof. apply (foldl_insort_perm []). Qed.

Lemma insort_sorted x l :
  StronglySorted R l → StronglySorted R (insort lt key x l).
Proof.
  induction 1 as [|y l Hl IH Hy]; simpl; [repeat constructor |].
  destruct (lt (key x) (key y)) eqn:Hxy.
  - constructor; [by constructor |]. constructor; [by apply lt_R |].
    eapply Forall_impl; [exact Hy |]. intros z Hz.
    eapply R_trans; [by apply lt_R | done].
  - constructor; [done |]. rewrite insort_perm.
    constructor; [by apply not_lt_R | done].
Qed.

Lemma sorted_sorted l : StronglySorted R (sorted lt key l).
Proof.
  unfold sorted. generalize (SSorted_nil R). generalize (@nil A).
  induction l as [|x l IH]; intros acc Hacc; simpl; [done |].
  by apply IH, insort_sorted.
Qed.

End SortedFacts.

Lemma StronglySorted_lookup {A} (R : A → A → Prop) l i j x y :
  StronglySorted R l → (i < j)%nat →
  l !! i = Some x → l !! j = Some y → R x y.
Proof.
  intros Hl; revert i j; induction Hl as [|z l _ IH Hz]; intros i j Hij Hi Hj.
  - done.
  - destruct j as [|j]; [lia |]. destruct i as [|i]; simpl in *.
    + injection Hi as ->. rewrite Forall_lookup in Hz. by eapply Hz.
    + eapply IH; [| done | done]. lia.
Qed.

(** ** The three ways a run can go *)

Section Runs_of_main.

Variable uni : char → bool.

Local Abbreviation table_of := (table_of uni).

Lemma bind_step {A B} (m : script A) (k : A → script B) out w :
  (m ≫= k) out w =
  match m out w with
  | inl (a, out', w') => k a out' w'
  | inr r => inr r
  end.
Proof. reflexivity. Qed.







Lemma write_stdout_cases t out w1 w2 :
  stdout_encodes w1 = stdout_encodes w2 →
  (write_stdout t out w1 = inl ((), out ++ t, w1)
   ∧ write_stdout t out w2 = inl ((), out ++ t, w2))
  ∨ (write_stdout t out w1 = inr (Run out w1 (Raised "UnicodeEncodeError"))
     ∧ write_stdout t out w2 = inr (Run out w2 (Raised "UnicodeEncodeError"))).
Proof.
  intros He. unfold write_stdout. rewrite He.
  destruct (forallb (stdout_encodes w2) t); [by left | by right].
Qed.

Lemma write_text_cases name content out w1 w2 :
  bool_decide (name ∈ readonly w1) = bool_decide (name ∈ readonly w2) →
  (write_text name content out w1 = inl ((), out, write_file w1 name content)
   ∧ write_text name content out w2
     = inl ((), out, write_file w2 name content))
  ∨ (write_text name content out w1 = inr (Run out w1 (Raised "OSError"))
     ∧ write_text name content out w2 = inr (Run out w2 (Raised "OSError"))).
Proof.
  intros Hr. unfold write_text. rewrite Hr.
  destruct (bool_decide (name ∈ readonly w2)); [by right | by left].
Qed.

Lemma for_each_write_cases {A} (l : list A) (f : A → str) out w1 w2 :
  stdout_encodes w1 = stdout_encodes w2 →
  (for_each l (λ x, write_stdout (f x)) out w1
     = inl ((), out ++ mjoin (f <$> l), w1)
   ∧ for_each l (λ x, write_stdout (f x)) out w2
     = inl ((), out ++ mjoin (f <$> l), w2))
  ∨ ∃ out',
      for_each l (λ x, write_stdout (f x)) out w1
        = inr (Run out' w1 (Raised "UnicodeEncodeError"))
      ∧ for_each l (λ x, write_stdout (f x)) out w2
        = inr (Run out' w2 (Raised "UnicodeEncodeError")).
Proof.
  intros He. revert out; induction l as [|x l IH]; intros out.
  - left. cbn [for_each]. by rewrite app_nil_r.
  - cbn [for_each]. rewrite !bind_step.
    destruct (write_stdout_cases (f x) out w1 w2 He) as [[-> ->] | [-> ->]].
    + destruct (IH (out ++ f x)) as [[-> ->] | (out' & -> & ->)].
      * left. csimpl. by rewrite app_assoc.
      * right. by exists out'.
    + right. by exists out.
Qed.

(** Two runs that read the same input in the same environment go the same
    way; what a run prints, writes and returns is one of a few shapes. *)
Lemma main_agree w1 w2 :
  input_of w1 = input_of w2 → environment_of w1 = environment_of w2 →
  ∃ out r written,
    main uni w1 = Run out (left_behind w1 written) r
    ∧ main uni w2 = Run out (left_behind w2 written) r
    ∧ (r = Exit 0 → is_Some written
                    ∧ ∃ dir content,
                        samples w1 = Some dir ∧ dir !! "B.txt" = Some content
                        ∧ out = success_stdout uni (samples_path w1) content)
    ∧ (r = Exit 1 →
         written = None
         ∧ (samples w1 = None
            ∨ ∃ dir, samples w1 = Some dir ∧ dir !! "B.txt" = None
                     ∧ "B.txt" ∉ opaque w1))
    ∧ (∀ status, r = Exit status → status = 0%Z ∨ status = 1%Z)
    ∧ (is_Some written →
         ∃ dir content, samples w1 = Some dir ∧ dir !! "B.txt" = Some content
                        ∧ written = Some (success_json uni content)).
Proof.
  unfold input_of, environment_of. intros [= Hp Hi] [= He Ho Hr].
  unfold main, run_script, file_exists. rewrite <- Hp.
  destruct (samples w1) as [d1|] eqn:H1, (samples w2) as [d2|] eqn:H2;
    simpl in Hi; try discriminate.
  2:{ (* no samples directory *)
    rewrite !bind_step.
    match goal with |- context [write_stdout ?t ?o w1] =>
      destruct (write_stdout_cases t o w1 w2 He) as [[-> ->] | [-> ->]] end.
    - eexists _, (Exit 1), None.
      split_and!; [reflexivity | reflexivity | discriminate | | | ].
      + intros _. split; [done | by left].
      + intros status [= <-]. by right.
      + by intros [? [=]].
    - eexists _, (Raised _), None.
      split_and!; [reflexivity | reflexivity | discriminate.. | ].
      by intros [? [=]]. }
  injection Hi as Hi. cbn [mbind option_bind]. rewrite <- Hi.
  destruct (d1 !! "B.txt") as [content|] eqn:Hf.
  - (* B.txt can be read *)
    rewrite !bool_decide_eq_true_2 by (left; by eexists).
    cbn [negb]. unfold extract_tokens. rewrite <- Hi, Hf.
    cbn [mbind option_bind or_OSError]. rewrite !bind_step.
    match goal with |- context [write_stdout ?t ?o w1] =>
      destruct (write_stdout_cases t o w1 w2 He) as [[-> ->] | [-> ->]] end.
    2:{ eexists _, (Raised _), None.
        split_and!; [reflexivity | reflexivity | discriminate.. | ].
        by intros [? [=]]. }
    rewrite !bind_step. cbn [mret script_ret]. rewrite !bind_step.
    match goal with |- context [write_stdout ?t ?o w1] =>
      destruct (write_stdout_cases t o w1 w2 He) as [[-> ->] | [-> ->]] end.
    2:{ eexists _, (Raised _), None.
        split_and!; [reflexivity | reflexivity | discriminate.. | ].
        by intros [? [=]]. }
    rewrite !bind_step.
    match goal with |- context [for_each ?l (λ x, write_stdout (?f x)) ?o w1] =>
      destruct (for_each_write_cases l f o w1 w2 He)
        as [[-> ->] | (out' & -> & ->)] end.
    2:{ eexists _, (Raised _), None.
        split_and!; [reflexivity | reflexivity | discriminate.. | ].
        by intros [? [=]]. }
    rewrite !bind_step.
    match goal with |- context [write_text ?n ?c ?o w1] =>
      destruct (write_text_cases n c o w1 w2 Hr) as [[-> ->] | [-> ->]] end.
    2:{ eexists _, (Raised _), None.
        split_and!; [reflexivity | reflexivity | discriminate.. | ].
        by intros [? [=]]. }
    rewrite !bind_step.
    match goal with |- context [write_stdout ?t ?o (write_file w1 ?n ?c)] =>
      destruct (write_stdout_cases t o (write_file w1 n c) (write_file w2 n c)
                  He) as [[-> ->] | [-> ->]] end.
    + eexists _, (Exit 0), (Some (success_json uni content)).
      split_and!; [reflexivity | reflexivity | | discriminate | | ].
      * intros _. split; [by eexists |]. exists d1, content.
        split_and!; [done | done |].
        unfold success_stdout, print, joinpath. rewrite <- !app_assoc. reflexivity.
      * intros status [= <-]. by left.
      * intros _. by exists d1, content.
    + eexists _, (Raised _), (Some (success_json uni content)).
      split_and!; [reflexivity | reflexivity | discriminate.. | ].
      intros _. by exists d1, content.
  - (* no readable B.txt *)
    assert (∀ w : world,
              bool_decide (is_Some (None : option str) ∨ "B.txt" ∈ opaque w)
              = bool_decide ("B.txt" ∈ opaque w)) as Hb.
    { intros w. apply bool_decide_ext. split; [|by right].
      by intros [[? [=]] | ?]. }
    rewrite !Hb, <- Ho.
    destruct (bool_decide_reflect ("B.txt" ∈ opaque w1)) as [Hin | Hout];
      cbn [negb].
    + unfold extract_tokens. rewrite <- Hi, Hf.
      cbn [mbind option_bind or_OSError]. rewrite !bind_step.
      match goal with |- context [write_stdout ?t ?o w1] =>
        destruct (write_stdout_cases t o w1 w2 He) as [[-> ->] | [-> ->]] end.
      all: eexists _, (Raised _), None.
      all: split_and!; [reflexivity | reflexivity | discriminate.. | ].
      all: by intros [? [=]].
    + rewrite !bind_step.
      match goal with |- context [write_stdout ?t ?o w1] =>
        destruct (write_stdout_cases t o w1 w2 He) as [[-> ->] | [-> ->]] end.
      * eexists _, (Exit 1), None.
        split_and!; [reflexivity | reflexivity | discriminate | | | ].
        -- intros _. split; [done | right; by exists d1].
        -- intros status [= <-]. by right.
        -- by intros [? [=]].
      * eexists _, (Raised _), None.
        split_and!; [reflexivity | reflexivity | discriminate.. | ].
        by intros [? [=]].
Qed.


Lemma left_behind_input w written :
  input_of (left_behind w written) = input_of w.
Proof.
  destruct written as [json|]; [|done]. unfold input_of. simpl.
  destruct (samples w) as [dir|]; [|done]. simpl.
  by rewrite lookup_insert_ne.
Qed.

Lemma left_behind_twice w written :
  left_behind (left_behind w written) written = left_behind w written.
Proof.
  destruct written as [json|]; [|done]. unfold left_behind, write_file. simpl.
  f_equal. destruct (samples w) as [dir|]; [|done]. simpl.
  by rewrite insert_insert_eq.
Qed.

(** The shapes of a run. *)
Lemma main_shape w :
  ∃ out r written,
    main uni w = Run out (left_behind w written) r
    ∧ (r = Exit 0 → is_Some written
                    ∧ ∃ dir content,
                        samples w = Some dir ∧ dir !! "B.txt" = Some content
                        ∧ out = success_stdout uni (samples_path w) content)
    ∧ (r = Exit 1 →
         written = None
         ∧ (samples w = None
            ∨ ∃ dir, samples w = Some dir ∧ dir !! "B.txt" = None
                     ∧ "B.txt" ∉ opaque w))
    ∧ (∀ status, r = Exit status → status = 0%Z ∨ status = 1%Z)
    ∧ (is_Some written →
         ∃ dir content, samples w = Some dir ∧ dir !! "B.txt" = Some content
                        ∧ written = Some (success_json uni content)).
Proof.
  destruct (main_agree w w eq_refl eq_refl)
    as (out & r & written & Hm & _ & H0 & H1 & Hs & Hw).
  by exists out, r, written.
Qed.

Lemma main_again w :
  main uni (final (main uni w)) = main uni w.
Proof.
  destruct (main_shape w) as (out & r & written & Hm & _).
  rewrite Hm. cbn [final].
  destruct (main_agree (left_behind w written) w)
    as (out' & r' & written' & Hm1 & Hm2 & _);
    [apply left_behind_input | by destruct written |].
  rewrite Hm1. rewrite Hm in Hm2. injection Hm2 as -> Hw ->.
  by rewrite Hw, left_behind_twice.
Qed.

End Runs_of_main.

(** * The specification, settled against the script *)

(** C1. The escape stripper removes exactly the substrings of its input that
    are escape sequences (ESC, [, digits and semicolons, m): a position of
    the input is dropped if and only if it lies inside such a substring, and
    the result is the remaining characters in their original order. *)
Theorem strip_ansi_removes_exactly_escapes (uni : char → bool) (s : str) :
  ∃ keep : list bool,
    length keep = length s
    ∧ strip_ansi uni s = select keep s
    ∧ ∀ i, (i < length s)%nat → keep !! i = Some false ↔ in_sgr s i.
Proof. apply strip_ansi_mask. Qed.

(** Only the escape sequences of the input are looked for: the characters
    around a removed one may close up into a new one, which stays. *)
Example strip_ansi_single_pass (uni : char → bool) :
  strip_ansi uni ([27] ++ lit "[" ++ [27] ++ lit "[0m" ++ lit "0m")
  = [27] ++ lit "[0m".
Proof. vm_compute; reflexivity. Qed.

(** C9. The escape stripper never lengthens its input, and keeps its length
    exactly when the input has no substring that is an escape sequence. *)
Theorem strip_ansi_length (uni : char → bool) (s : str) :
  (length (strip_ansi uni s) ≤ length s)%nat
  ∧ (length (strip_ansi uni s) = length s ↔ ¬ has_sgr s).
Proof.
  destruct (strip_ansi_mask uni s) as (keep & Hlen & -> & Hpos).
  destruct (select_length keep s Hlen) as [Hle Heq].
  split; [done |]. rewrite Heq. split.
  - intros Hall (pre & e & post & Hs & He).
    apply (Hall (length pre)), Hpos.
    + pose proof (SGR_length e He). rewrite Hs, !length_app. lia.
    + exists pre, e, post. pose proof (SGR_length e He).
      split_and!; [done | done | lia | lia].
  - intros Hno i Hi.
    assert (i < length s)%nat as Hlt
      by (rewrite <- Hlen; by eapply lookup_lt_Some).
    apply Hpos in Hi as (pre & e & post & Hs & He & _); [|done].
    apply Hno. by exists pre, e, post.
Qed.

(** [\w] is the word class of the specification. *)
Lemma is_word_spec (uni : char → bool) (c : char) :
  is_word uni c = true ↔ word_character uni c.
Proof.
  unfold is_word, word_character, ascii_letter, ascii_digit.
  destruct (N.ltb_spec c 128) as [Hlt | Hge].
  - rewrite !orb_true_iff, !andb_true_iff, !N.leb_le, N.eqb_eq. lia.
  - split; [intros H; right; right; right; by split | ].
    intros [? | [? | [? | [_ H]]]]; [lia | lia | lia | done].
Qed.

Lemma maximal_run_spec (uni : char → bool) (s : str) (a : nat) (t : str) :
  maximal_run uni s a t ↔ maximal_word_run uni s a t.
Proof.
  unfold maximal_run, maximal_word_run, word.
  split; intros (pre & post & Hs & Ha & Hne & Ht & Hl & Hr);
    exists pre, post; split_and!; try done.
  - eapply Forall_impl; [exact Ht |]. intros c. apply is_word_spec.
  - intros c Hc Hw. apply (Hl c Hc). by apply is_word_spec.
  - intros c Hc Hw. apply (Hr c Hc). by apply is_word_spec.
  - eapply Forall_impl; [exact Ht |]. intros c. apply is_word_spec.
  - intros c Hc Hw. apply (Hl c Hc). by apply is_word_spec.
  - intros c Hc Hw. apply (Hr c Hc). by apply is_word_spec.
Qed.

(** C2. The tokenizer returns all maximal runs of one or more word
    characters (letters, digits, underscore) of its input, in order of
    occurrence and without overlap: the tokens, paired with the offsets
    they were found at, are exactly the maximal runs, the offsets increase
    and no token reaches into the next.  Equal runs at different offsets
    are all listed.  The tokenizer is a function of its input: a second
    call on the same text returns the same list. *)
Theorem tokenizer_maximal_runs (uni : char → bool) (s : str) :
  (∃ starts : list nat,
     length starts = length (findall uni WORD_RUN s)
     ∧ (∀ i j a t b, (i < j)%nat →
          starts !! i = Some a → findall uni WORD_RUN s !! i = Some t →
          starts !! j = Some b → (a + length t ≤ b)%nat)
     ∧ (∀ a t, maximal_word_run uni s a t ↔
          ∃ j, starts !! j = Some a ∧ findall uni WORD_RUN s !! j = Some t))
  ∧ (∀ s', s' = s → findall uni WORD_RUN s' = findall uni WORD_RUN s).
Proof.
  split; [|by intros ? ->].
  destruct (findall_word_runs uni s) as (starts & Hlen & Hord & Hruns).
  exists starts. split_and!; [done | done |].
  intros a t. rewrite <- maximal_run_spec. apply Hruns.
Qed.

(** The underscore and digits stay inside a token; a hyphen ends it. *)
Example tokenizer_keeps_underscores (uni : char → bool) :
  findall uni WORD_RUN (lit "snake_case x9Z-_")
  = [lit "snake_case"; lit "x9Z"; lit "_"].
Proof. vm_compute; reflexivity. Qed.

(** C3. In the table the frequency counter builds from a token sequence,
    the counts add up to the number of tokens, every count is at least 1
    and every key occurs once; built from the tokenizer's output, every key
    is a non-empty string. *)
Theorem frequency_table_invariant (uni : char → bool) :
  (∀ tokens : list str,
     total (Counter tokens) = Z.of_nat (length tokens)
     ∧ Forall (λ kv, (1 ≤ kv.2)%Z) (items (Counter tokens))
     ∧ NoDup (items (Counter tokens)).*1
     ∧ ∀ k, k ∈ (items (Counter tokens)).*1 → k ∈ tokens)
  ∧ (∀ s : str,
       Forall (λ kv, kv.1 ≠ []) (items (Counter (findall uni WORD_RUN s)))).
Proof.
  split.
  - intros tokens. rewrite Counter_foldl. unfold items. split_and!.
    + by rewrite foldl_count_total.
    + apply foldl_count_positive. constructor.
    + apply foldl_count_NoDup. constructor.
    + intros k [Hk | Hk]%foldl_count_keys; [|done].
      by apply elem_of_nil in Hk.
  - intros s. rewrite Counter_foldl. unfold items.
    apply Forall_forall. intros [k v] Hkv.
    assert (k ∈ (foldl count_one [] (findall uni WORD_RUN s)).*1) as Hk.
    { apply list_elem_of_fmap. by exists (k, v). }
    apply foldl_count_keys in Hk as [Hk | Hk]; [by apply elem_of_nil in Hk |].
    by apply findall_word_nonempty in Hk as [Hne _].
Qed.

(** C4. The sorted report holds exactly the entries of the frequency table,
    and of two entries the one that comes first has the greater count, or
    the same count and a token that is lexicographically not greater. *)
Theorem sorted_report_order (table : dict Z) :
  sorted tuple_lt sort_key (items table) ≡ₚ items table
  ∧ ∀ i j t1 c1 t2 c2, (i < j)%nat →
      sorted tuple_lt sort_key (items table) !! i = Some (t1, c1) →
      sorted tuple_lt sort_key (items table) !! j = Some (t2, c2) →
      (c1 > c2)%Z ∨ c1 = c2 ∧ lex_le t1 t2.
Proof.
  split; [apply sorted_perm |].
  intros i j t1 c1 t2 c2 Hij Hi Hj.
  change (report_le (t1, c1) (t2, c2)).
  eapply StronglySorted_lookup; [| exact Hij | exact Hi | exact Hj].
  apply sorted_sorted.
  - apply report_le_trans.
  - apply sort_key_lt.
  - intros x y. apply sort_key_not_lt.
Qed.

(** C6. The worked example: the content
    ["\x1b[31merror\x1b[0m: error code 42\n"] is cleaned to
    ["error: error code 42\n"], tokenized to error, error, code, 42, counted
    as error 2, code 1, 42 1, and reported as error 2, 42 1, code 1. *)
Theorem worked_example (uni : char → bool) :
  strip_ansi uni sample_content = lit "error: error code 42" ++ [10]
  ∧ findall uni WORD_RUN (lit "error: error code 42" ++ [10])
    = [lit "error"; lit "error"; lit "code"; lit "42"]
  ∧ Counter [lit "error"; lit "error"; lit "code"; lit "42"]
    = [(lit "error", 2%Z); (lit "code", 1%Z); (lit "42", 1%Z)]
  ∧ sorted tuple_lt sort_key
      (items [(lit "error", 2%Z); (lit "code", 1%Z); (lit "42", 1%Z)])
    = [(lit "error", 2%Z); (lit "42", 1%Z); (lit "code", 1%Z)]
  ∧ extract_tokens uni {[ "B.txt" := sample_content ]} "B.txt"
    = Some [(lit "error", 2%Z); (lit "code", 1%Z); (lit "42", 1%Z)]
  ∧ report_of (table_of uni sample_content)
    = [(lit "error", 2%Z); (lit "42", 1%Z); (lit "code", 1%Z)].
Proof. split_and!; vm_compute; reflexivity. Qed.



Lemma main_rerun (uni : char → bool) (w : world) :
  main uni (final (main uni w)) = main uni w.
Proof. apply main_again. Qed.

Lemma output_file_left_behind (w : world) dir json :
  samples w = Some dir →
  output_file_of (left_behind w (Some json)) = Some json.
Proof.
  intros H. unfold output_file_of. simpl. rewrite H. simpl.
  by rewrite lookup_insert_eq.
Qed.

Lemma main_same_input (uni : char → bool) (w1 w2 : world) :
  input_of w1 = input_of w2 → environment_of w1 = environment_of w2 →
  stdout (main uni w1) = stdout (main uni w2)
  ∧ result (main uni w1) = result (main uni w2)
  ∧ (result (main uni w1) = Exit 0 →
     output_file_of (final (main uni w1))
     = output_file_of (final (main uni w2))).
Proof.
  intros Hi He.
  destruct (main_agree uni w1 w2 Hi He)
    as (out & r & written & -> & -> & H0 & _ & _ & Hw).
  cbn [stdout result final]. split_and!; [done | done |].
  intros Hr. destruct (H0 Hr) as [Hsome _].
  destruct (Hw Hsome) as (dir & content & Hs & Hf & ->).
  assert (is_Some (samples w2)) as [dir2 Hs2].
  { unfold input_of in Hi. injection Hi as _ Hi. rewrite Hs in Hi.
    destruct (samples w2); [by eexists | done]. }
  by rewrite (output_file_left_behind w1 dir _ Hs),
             (output_file_left_behind w2 dir2 _ Hs2).
Qed.

(** C7. Running the script a second time, on the file system the first run
    left, prints the same text and leaves the same output file; and any two
    runs that read the same input in the same environment print the same
    text, end the same way and write the same output file. *)
Theorem rerun_identical (uni : char → bool) (w : world) :
  (let first := main uni w in
   let second := main uni (final first) in
   stdout second = stdout first
   ∧ output_file_of (final second) = output_file_of (final first)
   ∧ result second = result first)
  ∧ (∀ w', input_of w' = input_of w → environment_of w' = environment_of w →
       stdout (main uni w') = stdout (main uni w)
       ∧ result (main uni w') = result (main uni w)
       ∧ (result (main uni w') = Exit 0 →
          output_file_of (final (main uni w'))
          = output_file_of (final (main uni w)))).
Proof.
  split.
  - cbv zeta. by rewrite main_rerun.
  - intros w'. apply main_same_input.
Qed.

Lemma format_4d_width (n : Z) :
  length (format_4d n) = (4 `max` length (str_int n))%nat.
Proof. unfold format_4d. rewrite length_app, length_replicate. lia. Qed.

(** C8. On success the script prints a header naming the file, the number
    of unique tokens, then for each entry of the sorted report, in its
    order, one line: the count in decimal, right-aligned with spaces to at
    least four columns, an x, two spaces and the token; and last the path of
    the file it wrote. *)
Theorem report_printed (uni : char → bool) (w : world) dir content :
  samples w = Some dir → dir !! "B.txt" = Some content →
  result (main uni w) = Exit 0 →
  let counter := Counter (findall uni WORD_RUN (strip_ansi uni content)) in
  let sorted_items := sorted tuple_lt sort_key (items counter) in
  stdout (main uni w) =
    lit "Extracting tokens from B.txt..." ++ [10; 10]
    ++ lit "Found " ++ str_int (Z.of_nat (length counter))
    ++ lit " unique tokens" ++ [10; 10]
    ++ mjoin ((λ item : str * Z,
                 format_4d item.2 ++ lit "x  " ++ item.1 ++ [10])
              <$> sorted_items)
    ++ [10] ++ lit "Full token list written to " ++ samples_path w
    ++ lit "/tokens-audit.json" ++ [10]
  ∧ ∀ count : Z,
      format_4d count
      = replicate (4 - length (str_int count)) 32 ++ str_int count
      ∧ length (format_4d count) = (4 `max` length (str_int count))%nat.
Proof.
  intros H Hf Hok counter sorted_items. split.
  - destruct (main_shape uni w) as (out & r & written & Hm & H0 & _).
    rewrite Hm in Hok |- *. cbn [stdout result] in *.
    destruct (H0 Hok) as (_ & dir' & content' & Hs' & Hf' & ->).
    assert (content' = content) as -> by congruence.
    unfold success_stdout.
    change (report_of (table_of uni content)) with sorted_items.
    change (table_of uni content) with counter.
    rewrite (list_fmap_ext report_line
               (λ item, format_4d item.2 ++ lit "x  " ++ item.1 ++ [10])
               sorted_items).
    + unfold print, len. by rewrite <- !app_assoc.
    + intros i item _. unfold report_line, print. by rewrite <- !app_assoc.
  - intros count. split; [done | apply format_4d_width].
Qed.

Lemma report_printed_witness :
  samples sample_world = Some {[ "B.txt" := sample_content ]}
  ∧ ({[ "B.txt" := sample_content ]} : gmap string str) !! "B.txt"
    = Some sample_content
  ∧ result (main ascii_only sample_world) = Exit 0
  ∧ stdout (main ascii_only sample_world) =
      lit "Extracting tokens from B.txt..." ++ [10; 10]
      ++ lit "Found 3 unique tokens" ++ [10; 10]
      ++ lit "   2x  error" ++ [10]
      ++ lit "   1x  42" ++ [10]
      ++ lit "   1x  code" ++ [10]
      ++ [10] ++ lit "Full token list written to samples/tokens-audit.json"
      ++ [10].
Proof.
  split_and!; [reflexivity | reflexivity | reflexivity |].
  etrans;
    [ apply (report_printed ascii_only sample_world
               {[ "B.txt" := sample_content ]} sample_content);
      reflexivity
    | vm_compute; reflexivity ].
Defined.



(** * Further properties of the script *)

(** ** The table counts occurrences *)

Section CounterContent.

Local Open Scope Z_scope.

Lemma get_setitem (d : dict Z) t v k def :
  get (setitem d t v) k def = if decide (t = k) then v else get d k def.
Proof.
  induction d as [|[k' v'] d IH]; simpl.
  - by destruct (decide (t = k)).
  - destruct (decide (k' = t)) as [->|Hne]; simpl.
    + by destruct (decide (t = k)).
    + destruct (decide (k' = k)) as [->|]; [|done].
      by destruct (decide (t = k)); [subst|].
Qed.

Lemma occurrences_cons t toks k :
  occurrences k (t :: toks)
  = ((if decide (t = k) then 1 else 0) + occurrences k toks)%nat.
Proof.
  unfold occurrences. rewrite filter_cons. by destruct (decide (t = k)).
Qed.

Lemma foldl_count_get d toks k :
  get (foldl count_one d toks) k 0 = get d k 0 + Z.of_nat (occurrences k toks).
Proof.
  revert d; induction toks as [|t toks IH]; intros d; simpl.
  - unfold occurrences. simpl. lia.
  - rewrite IH, occurrences_cons. unfold count_one at 1. rewrite get_setitem.
    destruct (decide (t = k)) as [->|]; lia.
Qed.

Lemma foldl_count_keys_2 d toks k :
  k ∈ d.*1 ∨ k ∈ toks → k ∈ (foldl count_one d toks).*1.
Proof.
  revert d; induction toks as [|t toks IH]; intros d; simpl.
  - intros [? | ?%elem_of_nil]; done.
  - intros Hk. apply IH.
    destruct (count_one_keys d t) as [[-> Hin] | [-> _]].
    + destruct Hk as [? | [-> | ?]%elem_of_cons]; auto.
    + rewrite elem_of_app, list_elem_of_singleton.
      destruct Hk as [? | [-> | ?]%elem_of_cons]; auto.
Qed.

Lemma Counter_get toks k :
  get (Counter toks) k 0 = Z.of_nat (occurrences k toks).
Proof. rewrite Counter_foldl, foldl_count_get. simpl. lia. Qed.

(** In a table with each key once, an item is a key with its value. *)
Lemma get_item (d : dict Z) k c def :
  NoDup d.*1 → (k, c) ∈ d ↔ k ∈ d.*1 ∧ get d k def = c.
Proof.
  induction d as [|[k' v'] d IH]; csimpl; intros Hd.
  - split; [by intros ?%elem_of_nil | by intros [?%elem_of_nil _]].
  - apply NoDup_cons in Hd as [Hk' Hd]. specialize (IH Hd).
    rewrite !elem_of_cons, IH. destruct (decide (k' = k)) as [->|Hne].
    + split.
      * intros [[= <-] | [Hin _]]; [auto | done].
      * intros [_ <-]. by left.
    + split.
      * intros [[= ? ?] | [Hin Hg]]; [congruence | auto].
      * intros [[? | Hin] Hg]; [congruence | auto].
Qed.

Lemma Counter_items toks k c :
  (k, c) ∈ items (Counter toks) ↔ k ∈ toks ∧ c = Z.of_nat (occurrences k toks).
Proof.
  unfold items. rewrite Counter_foldl.
  rewrite (get_item _ k c 0) by (apply foldl_count_NoDup; constructor).
  rewrite foldl_count_get. simpl. split.
  - intros [[?%elem_of_nil | ?]%foldl_count_keys <-]; [done | split; [done | lia]].
  - intros [Hk ->]. split; [apply foldl_count_keys_2; by right | lia].
Qed.

Lemma occurrences_perm k toks1 toks2 :
  toks1 ≡ₚ toks2 → occurrences k toks1 = occurrences k toks2.
Proof. intros E. unfold occurrences. by rewrite E. Qed.

Lemma Counter_perm toks1 toks2 :
  toks1 ≡ₚ toks2 → items (Counter toks1) ≡ₚ items (Counter toks2).
Proof.
  intros E. apply NoDup_Permutation.
  - eapply NoDup_fmap_1. unfold items. rewrite Counter_foldl.
    apply foldl_count_NoDup. constructor.
  - eapply NoDup_fmap_1. unfold items. rewrite Counter_foldl.
    apply foldl_count_NoDup. constructor.
  - intros [k c]. rewrite !Counter_items, (occurrences_perm k _ _ E).
    by rewrite E.
Qed.

End CounterContent.

(** ** The report is determined by the table *)

Lemma lex_le_antisym a b : lex_le a b → lex_le b a → a = b.
Proof.
  induction 1 as [b | x a y b Hlt | x a b _ IH]; inversion 1; subst;
    try done; try lia.
  f_equal. by apply IH.
Qed.

Lemma report_le_antisym x y : report_le x y → report_le y x → x = y.
Proof.
  destruct x as [t1 c1], y as [t2 c2]. unfold report_le; simpl.
  intros [? | [-> L1]] [? | [? L2]]; try lia.
  f_equal. by apply lex_le_antisym.
Qed.

Lemma report_sorted (table : dict Z) :
  StronglySorted report_le (report_of table).
Proof.
  apply sorted_sorted.
  - apply report_le_trans.
  - apply sort_key_lt.
  - intros x y. apply sort_key_not_lt.
Qed.

Lemma report_of_perm (t1 t2 : dict Z) :
  items t1 ≡ₚ items t2 → report_of t1 = report_of t2.
Proof.
  intros E.
  apply (StronglySorted_unique_strong report_le);
    [ intros; by apply report_le_antisym | apply report_sorted.. | ].
  unfold report_of. by rewrite !sorted_perm.
Qed.

(** X1. The table maps each token to the number of times it occurs in the
    token sequence; a text that is no token has no entry, and
    [get] gives 0 for it. *)
Theorem counter_counts_occurrences (tokens : list str) (k : str) :
  get (Counter tokens) k 0%Z = Z.of_nat (occurrences k tokens)
  ∧ (k ∈ (items (Counter tokens)).*1 ↔ k ∈ tokens)
  ∧ ∀ c, (k, c) ∈ items (Counter tokens) ↔
         k ∈ tokens ∧ c = Z.of_nat (occurrences k tokens).
Proof.
  split_and!.
  - rewrite Counter_foldl, foldl_count_get. simpl. lia.
  - unfold items. rewrite Counter_foldl. split.
    + intros [?%elem_of_nil | ?]%foldl_count_keys; done.
    + intros Hk. apply foldl_count_keys_2. by right.
  - intros c. apply Counter_items.
Qed.

(** X2. The number the script prints as "unique tokens", the size of the
    table, is the number of distinct tokens. *)
Theorem unique_token_count (tokens : list str) :
  len (Counter tokens) = length (remove_dups tokens).
Proof.
  unfold len. rewrite <- (length_fmap fst). apply Permutation_length.
  apply NoDup_Permutation.
  - rewrite Counter_foldl. apply foldl_count_NoDup. constructor.
  - apply NoDup_remove_dups.
  - intros k. rewrite elem_of_remove_dups, Counter_foldl. split.
    + intros [?%elem_of_nil | ?]%foldl_count_keys; done.
    + intros Hk. apply foldl_count_keys_2. by right.
Qed.

(** X3. The sorted report lists every distinct token exactly once, with
    the number of its occurrences, and no two of its entries tie: of two
    entries the earlier has the greater count, or the same count and a
    different token that is lexicographically not greater. *)
Theorem report_lists_each_token_once (tokens : list str) :
  NoDup (report_of (Counter tokens)).*1
  ∧ (∀ t c, (t, c) ∈ report_of (Counter tokens) ↔
            t ∈ tokens ∧ c = Z.of_nat (occurrences t tokens))
  ∧ ∀ i j t1 c1 t2 c2, (i < j)%nat →
      report_of (Counter tokens) !! i = Some (t1, c1) →
      report_of (Counter tokens) !! j = Some (t2, c2) →
      (c1 > c2)%Z ∨ c1 = c2 ∧ t1 ≠ t2 ∧ lex_le t1 t2.
Proof.
  assert (NoDup (report_of (Counter tokens)).*1) as Hnd.
  { unfold report_of. rewrite sorted_perm. unfold items.
    rewrite Counter_foldl. apply foldl_count_NoDup. constructor. }
  split_and!; [done | |].
  - intros t c. unfold report_of. rewrite sorted_perm. apply Counter_items.
  - intros i j t1 c1 t2 c2 Hij Hi Hj.
    destruct (StronglySorted_lookup report_le _ i j _ _
                (report_sorted (Counter tokens)) Hij Hi Hj)
      as [? | [? ?]]; [by left | right]. simpl in *.
    split_and!; [done | | done]. intros ->.
    rewrite NoDup_alt in Hnd.
    assert (i = j); [|lia].
    apply (Hnd i j t2); rewrite list_lookup_fmap; [by rewrite Hi | by rewrite Hj].
Qed.

(** X4. The report does not depend on the order in which the tokens occur:
    token sequences that are permutations of each other give the same
    report. *)
Theorem report_ignores_token_order (tokens1 tokens2 : list str) :
  tokens1 ≡ₚ tokens2 →
  report_of (Counter tokens1) = report_of (Counter tokens2).
Proof. intros E. by apply report_of_perm, Counter_perm. Qed.

Lemma report_ignores_token_order_witness :
  [lit "b"; lit "a"; lit "b"] ≡ₚ [lit "a"; lit "b"; lit "b"]
  ∧ report_of (Counter [lit "b"; lit "a"; lit "b"])
    = report_of (Counter [lit "a"; lit "b"; lit "b"]).
Proof.
  assert ([lit "b"; lit "a"; lit "b"] ≡ₚ [lit "a"; lit "b"; lit "b"]) as E
    by apply Permutation_swap.
  split; [exact E | exact (report_ignores_token_order _ _ E)].
Defined.

(** ** How the stripper composes *)

Lemma SGR_chars e : SGR e → Forall sgr_char e.
Proof.
  intros (ps & -> & Hps). unfold sgr_char.
  constructor; [by left |]. constructor; [right; by left |].
  apply Forall_app. split.
  - eapply Forall_impl; [exact Hps |]. intros c Hc. right; right; by left.
  - constructor; [|constructor]. right; right; by right.
Qed.

Section StripCompose.

Variable uni : char → bool.

Lemma ansi_match_needs_esc c s n :
  sre_match uni ANSI_ESCAPE (c :: s) = Some n → c = 27.
Proof.
  intros (e & rest & Heq & He & _)%ansi_match_sound.
  pose proof (SGR_head e He) as Hh. destruct e as [|x e]; [done |].
  injection Hh as ->. by injection Heq.
Qed.

Lemma strip_ansi_copy c s :
  c ≠ 27 → strip_ansi uni (c :: s) = c :: strip_ansi uni s.
Proof.
  intros Hc. unfold strip_ansi. rewrite sub_empty_cons.
  destruct (sre_match uni ANSI_ESCAPE (c :: s)) as [[|n]|] eqn:Hm; try done.
  by apply ansi_match_needs_esc in Hm.
Qed.

Lemma strip_ansi_drop e s :
  SGR e → strip_ansi uni (e ++ s) = strip_ansi uni s.
Proof.
  intros He. pose proof (ansi_match_complete uni e s He) as Hm.
  pose proof (SGR_length e He) as Hlen.
  destruct e as [|c e]; [simpl in Hlen; lia |].
  unfold strip_ansi. cbn [app] in *. rewrite sub_empty_cons, Hm.
  cbn [length]. by rewrite drop_app_length.
Qed.

(** X5. Text before the first ESC character is copied unchanged, and
    stripping goes on after it; in particular a text without ESC is
    returned as it is. *)
Theorem strip_ansi_before_first_escape a b :
  27 ∉ a → strip_ansi uni (a ++ b) = a ++ strip_ansi uni b.
Proof.
  induction a as [|c a IH]; [done |].
  intros [Hc Ha]%not_elem_of_cons. cbn [app].
  rewrite strip_ansi_copy by done. by rewrite IH.
Qed.

Lemma no_match_before a sep b :
  ¬ sgr_char sep → (∀ e rest, a = e ++ rest → ¬ SGR e) →
  ∀ e rest, a ++ sep :: b = e ++ rest → ¬ SGR e.
Proof.
  intros Hsep Hnone e rest Heq He.
  apply app_eq_inv in Heq as [(k & Hk & _) | (k & -> & Hk)].
  - by apply (Hnone e k).
  - destruct k as [|x k].
    + apply (Hnone a []); [by rewrite app_nil_r | by rewrite app_nil_r in He].
    + injection Hk as <- _. apply SGR_chars in He.
      rewrite Forall_app, Forall_cons in He. tauto.
Qed.

Lemma strip_ansi_split a sep b :
  ¬ sgr_char sep →
  strip_ansi uni (a ++ sep :: b)
  = strip_ansi uni a ++ sep :: strip_ansi uni b.
Proof.
  intros Hsep.
  assert (sep ≠ 27) as Hesc by (intros ->; apply Hsep; by left).
  remember (length a) as len eqn:Hlen.
  revert a Hlen; induction len as [len IH] using lt_wf_ind; intros a ->.
  destruct a as [|c a].
  { cbn [app]. by rewrite strip_ansi_copy. }
  assert ((∃ n, sre_match uni ANSI_ESCAPE (c :: a) = Some (S n))
          ∨ ∀ n, sre_match uni ANSI_ESCAPE (c :: a) ≠ Some (S n))
    as [[n Hm] | Hno]
    by (destruct (sre_match uni ANSI_ESCAPE (c :: a)) as [[|n]|];
        [by right | left; by exists n | by right]).
  - destruct (ansi_match_sound uni _ _ Hm) as (e & rest & Heq & He & Hn).
    rewrite Heq, <- app_assoc.
    rewrite (strip_ansi_drop e (rest ++ sep :: b) He), (strip_ansi_drop e rest He).
    apply (IH (length rest)); [|done].
    rewrite Heq, length_app. pose proof (SGR_length e He). lia.
  - assert (∀ e rest, c :: a = e ++ rest → ¬ SGR e) as Hnone.
    { by apply (no_match_no_prefix uni). }
    pose proof (no_match_before (c :: a) sep b Hsep Hnone) as Hnone2.
    assert (∀ s, (∀ e rest, c :: s = e ++ rest → ¬ SGR e) →
                 strip_ansi uni (c :: s) = c :: strip_ansi uni s) as Hcopy.
    { intros s Hs. unfold strip_ansi. rewrite sub_empty_cons.
      destruct (sre_match uni ANSI_ESCAPE (c :: s)) as [[|n]|] eqn:Hm;
        try done.
      destruct (ansi_match_sound uni _ _ Hm) as (e & rest & Heq & He & _).
      by destruct (Hs e rest). }
    cbn [app] in *. rewrite !Hcopy by done. cbn [app]. f_equal.
    apply (IH (length a)); [simpl; lia | done].
Qed.

End StripCompose.

(** ** How the tokenizer composes *)

Section TokenCompose.

Variable uni : char → bool.

Local Abbreviation word := (word uni).

Lemma word_match_complete t rest :
  t ≠ [] → Forall word t → (∀ c, head rest = Some c → ¬ word c) →
  sre_match uni WORD_RUN (t ++ rest) = Some (length t).
Proof.
  intros Hne Ht Hrest. destruct t as [|c t]; [done |].
  destruct (sre_match uni WORD_RUN ((c :: t) ++ rest)) as [n|] eqn:Hm.
  - apply word_match_sound in Hm as (t' & rest' & Heq & <- & _ & Ht' & Hr').
    f_equal. f_equal. symmetry. by eapply closed_run_unique.
  - apply word_match_none in Hm. apply Forall_cons in Ht as [Hc _]. done.
Qed.

(** A run of word characters closed on the right is the next token. *)
Lemma findall_run t rest :
  t ≠ [] → Forall word t → (∀ c, head rest = Some c → ¬ word c) →
  findall uni WORD_RUN (t ++ rest) = t :: findall uni WORD_RUN rest.
Proof.
  intros Hne Ht Hrest.
  pose proof (word_match_complete t rest Hne Ht Hrest) as Hm.
  destruct t as [|c t]; [done |]. cbn [app length] in *.
  rewrite findall_cons, Hm.
  by rewrite take_app_length, drop_app_length.
Qed.

(** A character that is no word character yields nothing. *)
Lemma findall_skip c s :
  ¬ word c → findall uni WORD_RUN (c :: s) = findall uni WORD_RUN s.
Proof.
  intros Hc. rewrite findall_cons.
  destruct (sre_match uni WORD_RUN (c :: s)) as [n|] eqn:Hm; [|done].
  apply word_match_sound in Hm as (t & rest & Heq & _ & Hne & Ht & _).
  destruct t as [|x t]; [done |]. injection Heq as <- _.
  apply Forall_cons in Ht as [Hx _]. done.
Qed.

(** A text starts with a character that is no word character, or with a
    run of word characters closed on the right, or is empty. *)
Lemma scan_cases s :
  s = []
  ∨ (∃ c s', s = c :: s' ∧ ¬ word c)
  ∨ ∃ t rest, s = t ++ rest ∧ t ≠ [] ∧ Forall word t
              ∧ (∀ c, head rest = Some c → ¬ word c).
Proof.
  destruct s as [|c s]; [by left | right].
  destruct (sre_match uni WORD_RUN (c :: s)) as [n|] eqn:Hm.
  - right. apply word_match_sound in Hm as (t & rest & ? & _ & ? & ? & ?).
    by exists t, rest.
  - left. exists c, s. split; [done | by eapply word_match_none].
Qed.

(** X8. The tokens, joined, are the word characters of the text in their
    order: no word character is lost and nothing else gets into a token. *)
Theorem tokens_are_the_word_characters s :
  mjoin (findall uni WORD_RUN s) = filter (λ c, is_word uni c = true) s.
Proof.
  remember (length s) as len eqn:Hlen.
  revert s Hlen; induction len as [len IH] using lt_wf_ind; intros s ->.
  destruct (scan_cases s)
    as [-> | [(c & s' & -> & Hc) | (t & rest & -> & Hne & Ht & Hr)]].
  - by rewrite findall_nil.
  - rewrite findall_skip, filter_cons_False by done.
    apply (IH (length s')); [simpl; lia | done].
  - rewrite findall_run, filter_app by done. cbn [mjoin list_join].
    f_equal.
    + clear -Ht. induction Ht as [|c t Hc _ IHt]; [done |].
      rewrite filter_cons_True by done. by f_equal.
    + apply (IH (length rest)); [|done]. rewrite length_app.
      destruct t; [done | simpl; lia].
Qed.

Lemma findall_split a sep b :
  is_word uni sep = false →
  findall uni WORD_RUN (a ++ sep :: b)
  = findall uni WORD_RUN a ++ findall uni WORD_RUN b.
Proof.
  intros Hsep.
  assert (¬ word sep) as Hsep' by (intros H; red in H; congruence).
  remember (length a) as len eqn:Hlen.
  revert a Hlen; induction len as [len IH] using lt_wf_ind; intros a ->.
  destruct (scan_cases a)
    as [-> | [(c & a' & -> & Hc) | (t & rest & -> & Hne & Ht & Hr)]].
  - cbn [app]. by rewrite findall_skip, findall_nil.
  - cbn [app]. rewrite !findall_skip by done.
    apply (IH (length a')); [simpl; lia | done].
  - rewrite <- app_assoc, (findall_run t rest) by done.
    rewrite (findall_run t (rest ++ sep :: b)); [| done | done |].
    + cbn [app]. f_equal. apply (IH (length rest)); [|done].
      rewrite length_app. destruct t; [done | simpl; lia].
    + intros c. destruct rest as [|x rest]; simpl.
      * by intros [= <-].
      * apply Hr.
Qed.

End TokenCompose.

(** ** Digits *)

Lemma lit_String a s : lit (String a s) = Ascii.N_of_ascii a :: lit s.
Proof. reflexivity. Qed.

Lemma lit_length s : length (lit s) = String.length s.
Proof.
  induction s as [|a s IH]; [done |]. rewrite lit_String. simpl. lia.
Qed.

Lemma lit_app s1 s2 : lit (s1 +:+ s2) = lit s1 ++ lit s2.
Proof.
  induction s1 as [|a s1 IH]; [done |].
  change (String a s1 +:+ s2) with (String a (s1 +:+ s2)).
  by rewrite !lit_String, IH.
Qed.

Lemma pretty_N_char_digit x : 48 ≤ Ascii.N_of_ascii (pretty_N_char x) ≤ 57.
Proof. unfold pretty_N_char. repeat case_match; vm_compute; split; discriminate. Qed.

Lemma pretty_N_go_plain x s :
  Forall plain_ascii (lit s) → Forall plain_ascii (lit (pretty_N_go x s)).
Proof.
  revert s. induction (N.lt_wf_0 x) as [x _ IH]; intros s Hs.
  assert (x = 0 ∨ 0 < x) as [->|Hx] by lia; [by rewrite pretty_N_go_0 |].
  rewrite pretty_N_go_step by done. apply IH; [by apply N.div_lt |].
  rewrite lit_String. constructor; [|done].
  right. pose proof (pretty_N_char_digit (x `mod` 10)). lia.
Qed.

Lemma pretty_N_go_length (k : nat) x s :
  x < 10 ^ N.of_nat k →
  (String.length (pretty_N_go x s) ≤ k + String.length s)%nat.
Proof.
  revert x s; induction k as [|k IH]; intros x s Hx.
  - assert (x = 0) as -> by (simpl in Hx; lia). by rewrite pretty_N_go_0.
  - assert (x = 0 ∨ 0 < x) as [->|Hpos] by lia.
    { rewrite pretty_N_go_0. lia. }
    rewrite pretty_N_go_step by done.
    etrans; [apply IH|simpl; lia].
    apply N.Div0.div_lt_upper_bound.
    rewrite Nat2N.inj_succ, N.pow_succ_r' in Hx. lia.
Qed.

Lemma str_int_plain (n : Z) : Forall plain_ascii (str_int n).
Proof.
  unfold str_int, pretty, pretty_Z.
  assert (∀ p : positive, Forall plain_ascii (lit (pretty p))) as Hpos.
  { intros p. unfold pretty, pretty_positive, pretty, pretty_N.
    case_decide; [done |]. by apply pretty_N_go_plain. }
  destruct n as [|p|p]; [ | apply Hpos | ].
  - constructor; [right; vm_compute; split; discriminate | constructor].
  - rewrite lit_app. apply Forall_app. split; [|apply Hpos].
    constructor; [right; vm_compute; split; discriminate | constructor].
Qed.

Lemma str_int_length (n : Z) :
  (0 ≤ n < 10000)%Z → (length (str_int n) ≤ 4)%nat.
Proof.
  intros Hn. unfold str_int. rewrite lit_length.
  unfold pretty, pretty_Z. destruct n as [|p|p]; [simpl; lia | | lia].
  unfold pretty, pretty_positive, pretty, pretty_N.
  case_decide; [done |].
  etrans; [apply (pretty_N_go_length 4); simpl; lia | simpl; lia].
Qed.

(** ** The characters of the output file *)

Lemma hex_digit_plain n : n < 16 → plain_ascii (Json.hex_digit n).
Proof.
  intros Hn. right. unfold Json.hex_digit.
  destruct (N.ltb_spec n 10); lia.
Qed.

Lemma hex4_plain n : Forall plain_ascii (Json.hex4 n).
Proof.
  unfold Json.hex4.
  repeat (constructor; [apply hex_digit_plain; by apply N.mod_lt |]).
  constructor.
Qed.

Lemma escape_plain c : Forall plain_ascii (Json.escape c).
Proof.
  assert (plain_ascii 92 ∧ plain_ascii 34 ∧ plain_ascii 98 ∧ plain_ascii 102
          ∧ plain_ascii 110 ∧ plain_ascii 114 ∧ plain_ascii 116
          ∧ plain_ascii 117) as (? & ? & ? & ? & ? & ? & ? & ?)
    by (unfold plain_ascii; lia).
  unfold Json.escape.
  repeat (case_match; [by repeat constructor |]).
  destruct ((32 <=? c) && (c <=? 126)) eqn:Hr.
  { apply andb_true_iff in Hr as [Hlo%N.leb_le Hhi%N.leb_le].
    constructor; [right; lia | constructor]. }
  case_match.
  - constructor; [done |]. constructor; [done |]. apply hex4_plain.
  - constructor; [done |]. constructor; [done |].
    apply Forall_app. split; [apply hex4_plain |].
    constructor; [done |]. constructor; [done |]. apply hex4_plain.
Qed.

Lemma encode_basestring_ascii_plain s :
  Forall plain_ascii (Json.encode_basestring_ascii s).
Proof.
  unfold Json.encode_basestring_ascii.
  constructor; [right; lia |]. apply Forall_app. split.
  - apply Forall_join, Forall_fmap, Forall_forall. intros c _.
    apply escape_plain.
  - constructor; [right; lia | constructor].
Qed.

Lemma newline_indent_plain level :
  Forall plain_ascii (Json.newline_indent level).
Proof.
  unfold Json.newline_indent. constructor; [by left |].
  apply Forall_replicate. right. lia.
Qed.

Lemma container_plain open close level members :
  plain_ascii open → plain_ascii close →
  Forall (Forall plain_ascii) members →
  Forall plain_ascii (Json.container open close level members).
Proof.
  intros Ho Hc Hm. unfold Json.container.
  destruct Hm as [|m ms Hm Hms].
  { constructor; [done |]. constructor; [done | constructor]. }
  constructor; [done |].
  apply Forall_app; split; [apply newline_indent_plain |].
  apply Forall_app; split; [done |].
  apply Forall_app; split.
  - apply Forall_join, Forall_fmap.
    eapply Forall_impl; [exact Hms |]. intros m' Hm'. cbn [compose].
    apply Forall_app; split; [constructor; [right; lia | constructor] |].
    apply Forall_app; split; [apply newline_indent_plain | done].
  - apply Forall_app; split; [apply newline_indent_plain |].
    constructor; [done | constructor].
Qed.

(** Whatever is encoded, the text is plain ASCII. *)
Lemma encode_plain v : ∀ level, Forall plain_ascii (Json.encode level v).
Proof.
  revert v. fix IH 1. intros [n|s|l|l] level; cbn [Json.encode].
  - apply str_int_plain.
  - apply encode_basestring_ascii_plain.
  - apply container_plain; [right; lia | right; lia |].
    apply Forall_fmap.
    induction l as [|v l IHl]; constructor; [apply IH | exact IHl].
  - apply container_plain; [right; lia | right; lia |].
    apply Forall_fmap.
    induction l as [|[k v] l IHl]; constructor; [|exact IHl].
    cbn [compose fst snd].
    apply Forall_app; split; [apply encode_basestring_ascii_plain |].
    constructor; [right; lia |]. constructor; [right; lia |]. apply IH.
Qed.

(** ** The stripper and the tokenizer, composed *)

Lemma strip_ansi_before_first_escape_witness :
  (27 ∉ lit "plain text ")
  ∧ strip_ansi ascii_only (lit "plain text " ++ sample_content)
    = lit "plain text " ++ strip_ansi ascii_only sample_content.
Proof.
  assert (27 ∉ lit "plain text ") as H
    by (apply (bool_decide_unpack _); vm_compute; exact I).
  split; [exact H |].
  exact (strip_ansi_before_first_escape ascii_only _ sample_content H).
Defined.

(** X6. An escape sequence at the start of a text is dropped as a whole and
    stripping goes on with what follows it, whatever that is. *)
Theorem strip_ansi_drops_leading_escape (uni : char → bool) (e s : str) :
  SGR e → strip_ansi uni (e ++ s) = strip_ansi uni s.
Proof. apply strip_ansi_drop. Qed.

Lemma strip_ansi_drops_leading_escape_witness :
  SGR ([27] ++ lit "[1;31m")
  ∧ strip_ansi ascii_only (([27] ++ lit "[1;31m") ++ lit "mmm")
    = strip_ansi ascii_only (lit "mmm").
Proof.
  assert (SGR ([27] ++ lit "[1;31m")) as H.
  { exists (lit "1;31"). split; [reflexivity |].
    unfold sgr_param. repeat constructor; vm_compute; intuition discriminate. }
  split; [exact H |].
  exact (strip_ansi_drops_leading_escape ascii_only _ (lit "mmm") H).
Defined.

(** X7. A character that cannot occur in an escape sequence (a newline, a
    space, a letter other than m) cuts the text in two for the stripper:
    both sides are stripped on their own. *)
Theorem strip_ansi_splits_at (uni : char → bool) (a b : str) (sep : char) :
  ¬ sgr_char sep →
  strip_ansi uni (a ++ sep :: b)
  = strip_ansi uni a ++ sep :: strip_ansi uni b.
Proof. apply strip_ansi_split. Qed.

Lemma newline_not_sgr_char : ¬ sgr_char 10.
Proof. unfold sgr_char, sgr_param. intros [|[|[|]]]; lia. Qed.

Lemma strip_ansi_splits_at_witness :
  ¬ sgr_char 10
  ∧ strip_ansi ascii_only (sample_content ++ 10 :: blank_content)
    = strip_ansi ascii_only sample_content
      ++ 10 :: strip_ansi ascii_only blank_content.
Proof.
  split; [exact newline_not_sgr_char |].
  exact (strip_ansi_splits_at ascii_only sample_content blank_content 10
           newline_not_sgr_char).
Defined.

(** X9. A character that is no word character cuts the text in two for the
    tokenizer: the tokens are those of the left part followed by those of
    the right part. *)
Theorem tokens_split_at (uni : char → bool) (a b : str) (sep : char) :
  is_word uni sep = false →
  findall uni WORD_RUN (a ++ sep :: b)
  = findall uni WORD_RUN a ++ findall uni WORD_RUN b.
Proof. apply findall_split. Qed.

Lemma tokens_split_at_witness :
  is_word ascii_only 45 = false
  ∧ findall ascii_only WORD_RUN (lit "log" ++ 45 :: lit "file")
    = findall ascii_only WORD_RUN (lit "log")
      ++ findall ascii_only WORD_RUN (lit "file").
Proof.
  split; [reflexivity |].
  exact (tokens_split_at ascii_only (lit "log") (lit "file") 45 eq_refl).
Defined.

Lemma occurrences_app k l1 l2 :
  occurrences k (l1 ++ l2) = (occurrences k l1 + occurrences k l2)%nat.
Proof. unfold occurrences. by rewrite filter_app, length_app. Qed.

(** X10. The script works line by line: the tokens of a text are the tokens
    of its first line followed by those of the rest, so the count of a
    token in the table is the sum of its counts over the lines. *)
Theorem counts_add_over_lines (uni : char → bool) (a b : str) :
  tokens_of uni (a ++ 10 :: b) = tokens_of uni a ++ tokens_of uni b
  ∧ ∀ k, get (table_of uni (a ++ 10 :: b)) k 0%Z
         = (get (table_of uni a) k 0 + get (table_of uni b) k 0)%Z.
Proof.
  assert (tokens_of uni (a ++ 10 :: b) = tokens_of uni a ++ tokens_of uni b)
    as Htok.
  { unfold tokens_of.
    rewrite strip_ansi_split by exact newline_not_sgr_char.
    by rewrite findall_split. }
  split; [done |]. intros k.
  change (table_of uni (a ++ 10 :: b))
    with (Counter (tokens_of uni (a ++ 10 :: b))).
  change (table_of uni a) with (Counter (tokens_of uni a)).
  change (table_of uni b) with (Counter (tokens_of uni b)).
  rewrite Htok, !Counter_get, occurrences_app. lia.
Qed.

(** ** What a run leaves alone, and what it writes *)


(** X12. Whatever the tokens are, the output file of a successful run holds
    only printable ASCII characters and newlines: characters outside ASCII
    are written as [\u] escapes. *)
Theorem output_file_is_ascii (uni : char → bool) (w : world) dir content :
  samples w = Some dir → dir !! "B.txt" = Some content →
  result (main uni w) = Exit 0 →
  ∃ json, read_file (final (main uni w)) "tokens-audit.json" = Some json
          ∧ Forall plain_ascii json.
Proof.
  intros H Hf Hok.
  destruct (main_shape uni w) as (out & r & written & Hm & H0 & _ & _ & Hw).
  rewrite Hm in Hok |- *. cbn [final result] in *.
  destruct (H0 Hok) as [Hsome _].
  destruct (Hw Hsome) as (dir' & content' & Hs' & Hf' & ->).
  eexists. split.
  - unfold left_behind, write_file, read_file. cbn [samples]. rewrite H.
    simpl. by rewrite lookup_insert_eq.
  - apply encode_plain.
Qed.

Lemma output_file_is_ascii_witness :
  samples accent_world = Some {[ "B.txt" := accent_content ]}
  ∧ ({[ "B.txt" := accent_content ]} : gmap string str) !! "B.txt"
    = Some accent_content
  ∧ result (main all_alnum accent_world) = Exit 0
  ∧ ∃ json,
      read_file (final (main all_alnum accent_world)) "tokens-audit.json"
      = Some json
      ∧ Forall plain_ascii json.
Proof.
  split_and!; [reflexivity | reflexivity | reflexivity |].
  apply (output_file_is_ascii all_alnum accent_world
           {[ "B.txt" := accent_content ]} accent_content); reflexivity.
Defined.

(** X13. For a count below 10000 the count field of a report line is
    exactly four characters wide, so the tokens of such lines start in the
    same column. *)
Theorem report_line_aligned (token : str) (count : Z) :
  (0 ≤ count < 10000)%Z →
  ∃ field, length field = 4%nat
           ∧ report_line (token, count) = field ++ lit "x  " ++ token ++ [10].
Proof.
  intros Hc. exists (format_4d count). split.
  - rewrite format_4d_width. pose proof (str_int_length count Hc). lia.
  - unfold report_line, print. simpl. by rewrite <- !app_assoc.
Qed.

Lemma report_line_aligned_witness :
  (0 ≤ 42 < 10000)%Z
  ∧ ∃ field, length field = 4%nat
             ∧ report_line (lit "error", 42%Z)
               = field ++ lit "x  " ++ lit "error" ++ [10].
Proof.
  assert (0 ≤ 42 < 10000)%Z as H by lia.
  split; [exact H | exact (report_line_aligned (lit "error") 42 H)].
Defined.
